(** * NukeRedshift: the enumerate / filter / delete policy of
      [modules/package/nuke/database/redshift.py]

    The module talks to a remote service through [self.redshift].  The
    service is modelled as a record of responses ([Client]): what each
    paginated listing produces (its pages, in order, and the exception that
    may end the iteration), and the answer of each per-item call as a
    function of the identifier it is given.  The program is embedded in a
    small writer-and-exception monad [M] whose trace records every call made
    on the client, every [print] and every report handed to
    [nuke_exceptions], in program order.  Generators are embedded with the
    consumer's loop body as the [yield] continuation, so that the
    interleaving of listing and deleting, and the way an exception of the
    body ends the generator, are those of the Python code.

    The probe of [__init__] plays no part in [nuke] and is not embedded. *)

From Stdlib Require Import QArith.
From stdpp Require Import base option list numbers strings gmap fin_maps sorting.

Local Close Scope Q_scope.
#[local] Set Warnings "-clear-no-such-hyp".

Local Open Scope string_scope.
Local Open Scope list_scope.
Local Open Scope nat_scope.

(** ** Exceptions

    The source distinguishes [ClientError] (caught around every per-item
    call) from [EndpointConnectionError] (caught only in [__init__]); both
    are raised by the service client, and neither is a subclass of the
    other.  The string is what [str(e)] prints. *)
Inductive exn : Type :=
| ClientError (msg : string)
| EndpointConnectionError (msg : string).

Definition str (e : exn) : string :=
  match e with ClientError m => m | EndpointConnectionError m => m end.

Definition is_ClientError (e : exn) : bool :=
  match e with ClientError _ => true | EndpointConnectionError _ => false end.

Inductive response (A : Type) : Type :=
| Returns (a : A)
| Raises (e : exn).
Arguments Returns {A} a.
Arguments Raises {A} e.

(** ** Python floats, as far as [<] is concerned

    [time_delete] is a [float] and [datetime.timestamp()] returns one.  A
    finite float is a rational and IEEE comparison of finite floats is the
    comparison of those rationals; infinities and NaN compare as in IEEE. *)
Inductive float : Type :=
| Finite (q : Q)
| PosInf
| NegInf
| NaN.

Definition Qltb (a b : Q) : bool :=
  (Qnum a * Zpos (Qden b) <? Qnum b * Zpos (Qden a))%Z.

Definition Qleb (a b : Q) : bool :=
  (Qnum a * Zpos (Qden b) <=? Qnum b * Zpos (Qden a))%Z.

(** [x < y] *)
Definition float_lt (x y : float) : bool :=
  match x, y with
  | NaN, _ | _, NaN => false
  | Finite a, Finite b => Qltb a b
  | Finite _, PosInf => true
  | Finite _, NegInf => false
  | PosInf, _ => false
  | NegInf, NegInf => false
  | NegInf, _ => true
  end.

(** [x >= y] *)
Definition float_ge (x y : float) : bool :=
  match x, y with
  | NaN, _ | _, NaN => false
  | Finite a, Finite b => Qleb b a
  | Finite _, PosInf => false
  | Finite _, NegInf => true
  | PosInf, _ => true
  | NegInf, NegInf => true
  | NegInf, _ => false
  end.

(** An aware or naive [datetime]; [timestamp] is its POSIX time. *)
Record datetime : Type := { posix : Q }.

Definition timestamp (d : datetime) : float := Finite (posix d).

(** ** The shapes of the service's answers (only the keys the code reads) *)

Record Cluster : Type := {
  ClusterIdentifier : string;
  ClusterCreateTime : datetime
}.

Record Snapshot : Type := {
  SnapshotIdentifier : string;
  SnapshotCreateTime : datetime
}.

Record SubnetGroup : Type := { ClusterSubnetGroupName : string }.

Record ParameterGroup : Type := { ParameterGroupName : string }.

Record Tag : Type := { Key : string; Value : string }.

Record TagsResponse : Type := { TaggedResources : list Tag }.

(** What iterating [paginator.paginate()] produces: the pages, in order,
    and then either the end of the iteration or an exception.  A page is
    the list under its ["Clusters"], ["Snapshots"], ... key. *)
Record paginated (A : Type) : Type := {
  pages : list (list A);
  failure : option exn
}.
Arguments pages {A} p.
Arguments failure {A} p.

(** [self.redshift] *)
Record Client : Type := {
  describe_clusters : paginated Cluster;
  describe_cluster_snapshots : paginated Snapshot;
  describe_cluster_subnet_groups : paginated SubnetGroup;
  describe_cluster_parameter_groups : paginated ParameterGroup;
  list_tags_for_resource : string → response TagsResponse;
  delete_cluster : string → response unit;
  delete_cluster_snapshot : string → response unit;
  delete_cluster_subnet_group : string → response unit;
  delete_cluster_parameter_group : string → response unit
}.

(** ** Observable events *)

Inductive kind : Type := cluster | snapshot | subnet | param.

Global Instance kind_eq_dec : EqDecision kind.
Proof. solve_decision. Defined.

Global Instance exn_eq_dec : EqDecision exn.
Proof. solve_decision. Defined.

Inductive event : Type :=
| EvPaginate (k : kind)                 (* get_paginator(..).paginate() *)
| EvListTags (id : string)              (* list_tags_for_resource(ResourceName=id) *)
| EvDelete (k : kind) (id : string)     (* delete_cluster / _snapshot / _subnet_group / _parameter_group *)
| EvPrint (line : string)               (* print(line) *)
| EvReport (label id : string) (e : exn) (* nuke_exceptions(label, id, e) *)
| EvYield (id : string).                (* a generator's yield, when nothing consumes it *)

(** ** The monad: a trace, and a value or a raised exception *)

Definition M (A : Type) : Type := list event * response A.

Global Instance M_ret : MRet M := λ A a, ([], Returns a).

Global Instance M_bind : MBind M := λ A B f m,
  match m with
  | (t, Returns a) => let '(t', r) := f a in (t ++ t', r)
  | (t, Raises e) => (t, Raises e)
  end.

Definition trace {A} (m : M A) : list event := fst m.
Definition result {A} (m : M A) : response A := snd m.

Definition emit (ev : event) : M unit := ([ev], Returns tt).

Definition raise {A} (e : exn) : M A := ([], Raises e).

(** A call on the client: logged, then answered. *)
Definition call {A} (ev : event) (r : response A) : M A := ([ev], r).

(** [try: body  except ClientError as e: handler(e)] *)
Definition try_except_ClientError {A} (body : M A) (handler : exn → M A) : M A :=
  match body with
  | (t, Raises (ClientError msg)) =>
      let '(t', r) := handler (ClientError msg) in (t ++ t', r)
  | other => other
  end.

(** [for x in l: body(x)] *)
Fixpoint for_each {A} (l : list A) (body : A → M unit) : M unit :=
  match l with
  | [] => mret tt
  | x :: l' => body x ;; for_each l' body
  end.

(** [for page in self.redshift.get_paginator(op).paginate(): body(page)] *)
Definition paginate {A} (k : kind) (p : paginated A) (body : list A → M unit) : M unit :=
  emit (EvPaginate k) ;;
  for_each (pages p) body ;;
  match failure p with
  | Some e => raise e
  | None => mret tt
  end.

Definition print (line : string) : M unit := emit (EvPrint line).

(** Modelled from the spec: [nuke.exceptions.nuke_exceptions] is not part of
    the sources; the spec describes it as a logging sink that, given a
    resource-kind label, an identifier and an error, records a failure
    message.  It records and returns. *)
Definition nuke_exceptions (label id : string) (e : exn) : M unit :=
  emit (EvReport label id e).

(** ** Dictionaries *)

(** [{tag["Key"]: tag["Value"] for tag in tags}]: a later tag overrides an
    earlier one with the same key. *)
Definition tag_dict_of (tags : list Tag) : gmap string string :=
  foldl (λ d tag, <[Key tag := Value tag]> d) ∅ tags.

(** Truth value of an optional dict: [None] and [{}] are false. *)
Definition truthy (required_tags : option (gmap string string)) : bool :=
  match required_tags with
  | None => false
  | Some d => negb (Nat.eqb (size d) 0)
  end.

(** The loop of [_cluster_has_required_tags] over [required_tags.items()]:
    [tag_dict.get(key) != value] returns [False] at the first mismatch
    ([get] gives [None] for a missing key, which differs from any string).
    The loop has no effect, so its answer does not depend on the order of
    the items ([items_loop_subseteq] below). *)
Fixpoint items_loop (tag_dict : gmap string string) (items : list (string * string)) : bool :=
  match items with
  | [] => true
  | (key, value) :: rest =>
      if bool_decide (tag_dict !! key ≠ Some value) then false
      else items_loop tag_dict rest
  end.

(** ** The class [NukeRedshift] *)

Section NukeRedshift.

Variable redshift : Client.

Definition _cluster_has_required_tags
    (cluster : Cluster) (required_tags : gmap string string) : M bool :=
  try_except_ClientError
    (tags ← call (EvListTags (ClusterIdentifier cluster))
                 (list_tags_for_resource redshift (ClusterIdentifier cluster));
     let tag_dict := tag_dict_of (TaggedResources tags) in
     mret (items_loop tag_dict (map_to_list required_tags)))
    (λ e,
       print ("Failed to get tags for Redshift cluster "
                +:+ ClusterIdentifier cluster +:+ ": " +:+ str e) ;;
       mret false).

Definition list_clusters
    (time_delete : float) (required_tags : option (gmap string string))
    (yield : string → M unit) : M unit :=
  paginate cluster (describe_clusters redshift) (λ page,
    for_each page (λ cluster,
      if float_lt (timestamp (ClusterCreateTime cluster)) time_delete then
        skip ← match required_tags with
               | Some d =>
                   if truthy required_tags
                   then has ← _cluster_has_required_tags cluster d; mret (negb has)
                   else mret false
               | None => mret false
               end;
        if (skip : bool) then mret tt (* continue *)
        else yield (ClusterIdentifier cluster)
      else mret tt)).

Definition list_snapshots (time_delete : float) (yield : string → M unit) : M unit :=
  paginate snapshot (describe_cluster_snapshots redshift) (λ page,
    for_each page (λ snapshot,
      if float_lt (timestamp (SnapshotCreateTime snapshot)) time_delete
      then yield (SnapshotIdentifier snapshot)
      else mret tt)).

Definition list_subnet (yield : string → M unit) : M unit :=
  paginate subnet (describe_cluster_subnet_groups redshift) (λ page,
    for_each page (λ subnet, yield (ClusterSubnetGroupName subnet))).

Definition list_cluster_params (yield : string → M unit) : M unit :=
  paginate param (describe_cluster_parameter_groups redshift) (λ page,
    for_each page (λ param, yield (ParameterGroupName param))).

Definition nuke_clusters
    (time_delete : float) (required_tags : option (gmap string string)) : M unit :=
  list_clusters time_delete required_tags (λ cluster_id,
    try_except_ClientError
      (call (EvDelete cluster cluster_id) (delete_cluster redshift cluster_id) ;;
       print ("Nuke redshift cluster " +:+ cluster_id))
      (λ exc, nuke_exceptions "redshift cluster" cluster_id exc)).

Definition nuke_snapshots (time_delete : float) : M unit :=
  list_snapshots time_delete (λ snapshot_id,
    try_except_ClientError
      (call (EvDelete snapshot snapshot_id) (delete_cluster_snapshot redshift snapshot_id) ;;
       print ("Nuke redshift snapshot " +:+ snapshot_id))
      (λ exc, nuke_exceptions "redshift snapshot" snapshot_id exc)).

Definition nuke_subnets : M unit :=
  list_subnet (λ subnet_name,
    try_except_ClientError
      (call (EvDelete subnet subnet_name) (delete_cluster_subnet_group redshift subnet_name) ;;
       print ("Nuke redshift subnet " +:+ subnet_name))
      (λ exc, nuke_exceptions "redshift subnet" subnet_name exc)).

Definition nuke_param_groups : M unit :=
  list_cluster_params (λ param_name,
    try_except_ClientError
      (call (EvDelete param param_name) (delete_cluster_parameter_group redshift param_name) ;;
       print ("Nuke redshift param " +:+ param_name))
      (λ exc, nuke_exceptions "redshift param" param_name exc)).

Definition nuke
    (older_than_seconds : float) (required_tags : option (gmap string string)) : M unit :=
  nuke_clusters older_than_seconds required_tags ;;
  nuke_snapshots older_than_seconds ;;
  nuke_subnets ;;
  nuke_param_groups.

End NukeRedshift.

(** * Vocabulary of the statements *)

(** ** Projections of a trace *)

(** Identifiers passed to the delete operation of kind [k], in order. *)
Definition deletes (k : kind) (t : list event) : list string :=
  omap (λ ev, match ev with
              | EvDelete k' id => if decide (k' = k) then Some id else None
              | _ => None
              end) t.

(** Identifiers yielded, in order. *)
Definition yields (t : list event) : list string :=
  omap (λ ev, match ev with EvYield id => Some id | _ => None end) t.

(** Identifiers whose tags were looked up, in order. *)
Definition tag_lookups (t : list event) : list string :=
  omap (λ ev, match ev with EvListTags id => Some id | _ => None end) t.

(** Kinds whose paginator was requested, in order. *)
Definition paginations (t : list event) : list kind :=
  omap (λ ev, match ev with EvPaginate k => Some k | _ => None end) t.

(** Events of a decision: tag lookups and prints, nothing else. *)
Definition quiet (ev : event) : Prop :=
  match ev with EvListTags _ | EvPrint _ => True | _ => False end.

Definition returns {A} (m : M A) : bool :=
  match result m with Returns _ => true | Raises _ => false end.

(** ** Generators and their consumers *)

(** The generator run on its own: each [yield] is recorded. *)
Definition yield_event (id : string) : M unit := emit (EvYield id).

(** Replacing each recorded yield by the run of the consumer's body. *)
Definition consume (body : string → M unit) (t : list event) : list event :=
  t ≫= (λ ev, match ev with EvYield id => trace (body id) | _ => [ev] end).

(** [fuses body m m']: [m] is the run [m'] of a generator on its own, with
    the consumer's [body] run at each yield. *)
Definition fuses {A} (body : string → M unit) (m m' : M A) : Prop :=
  m = (consume body (trace m'), result m').

(** The common shape of the four generators: a decision [keep] on each item
    of each page, and a [yield] of its identifier when the decision is
    [True]. *)
Definition item {A} (keep : A → M bool) (ident : A → string)
    (yield : string → M unit) (x : A) : M unit :=
  b ← keep x; if (b : bool) then yield (ident x) else mret tt.

Definition lister {A} (k : kind) (p : paginated A) (keep : A → M bool)
    (ident : A → string) (yield : string → M unit) : M unit :=
  emit (EvPaginate k) ;;
  for_each (concat (pages p)) (item keep ident yield) ;;
  match failure p with Some e => raise e | None => mret tt end.

Definition keep_snapshot (time_delete : float) (s : Snapshot) : M bool :=
  mret (float_lt (timestamp (SnapshotCreateTime s)) time_delete).

Definition keep_all {A} (x : A) : M bool := mret true.

(** The common shape of the four loop bodies. *)
Definition delete_body (k : kind) (delete : string → response unit)
    (notice label : string) (id : string) : M unit :=
  try_except_ClientError
    (call (EvDelete k id) (delete id) ;; print (notice +:+ id))
    (λ exc, nuke_exceptions label id exc).

(** The label each loop hands to [nuke_exceptions]. *)
Definition label (k : kind) : string :=
  match k with
  | cluster => "redshift cluster"
  | snapshot => "redshift snapshot"
  | subnet => "redshift subnet"
  | param => "redshift param"
  end.

Definition old_cluster (td : float) (c : Cluster) : bool :=
  float_lt (timestamp (ClusterCreateTime c)) td.

Definition old_snapshot (td : float) (s : Snapshot) : bool :=
  float_lt (timestamp (SnapshotCreateTime s)) td.

(** ** The order of the kinds *)

(** Position of a kind in the order of [nuke]. *)
Definition rank (k : kind) : nat :=
  match k with cluster => 0 | snapshot => 1 | subnet => 2 | param => 3 end.

(** Kinds handled before [k]. *)
Definition earlier (k : kind) : list kind :=
  match k with
  | cluster => []
  | snapshot => [cluster]
  | subnet => [cluster; snapshot]
  | param => [cluster; snapshot; subnet]
  end.

Definition all_kinds : list kind := [cluster; snapshot; subnet; param].

(** In [t], a delete of an earlier kind never comes after a delete of a
    later kind. *)
Definition kinds_in_order (t : list event) : Prop :=
  ∀ i j k1 k2 id1 id2,
    t !! i = Some (EvDelete k1 id1) → t !! j = Some (EvDelete k2 id2) →
    rank k1 < rank k2 → i < j.

(** ** The service *)

(** The only failures of a per-item call are [ClientError]s. *)
Definition fails_with_ClientError_only {A} (op : string → response A) : Prop :=
  ∀ id e, op id = Raises e → is_ClientError e = true.

Section Service.
Variable redshift : Client.

(** [has_required_tags c d]: what [_cluster_has_required_tags] answers when
    the tag lookup returns or raises a [ClientError]. *)
Definition has_required_tags (c : Cluster) (d : gmap string string) : bool :=
  match list_tags_for_resource redshift (ClusterIdentifier c) with
  | Returns tags => items_loop (tag_dict_of (TaggedResources tags)) (map_to_list d)
  | Raises _ => false
  end.

(** The decision [list_clusters] takes for one cluster, up to the [yield]. *)
Definition keep_cluster (time_delete : float)
    (required_tags : option (gmap string string)) (c : Cluster) : M bool :=
  if float_lt (timestamp (ClusterCreateTime c)) time_delete then
    match required_tags with
    | Some d =>
        if truthy required_tags then _cluster_has_required_tags redshift c d
        else mret true
    | None => mret true
    end
  else mret false.

(** The value of that decision when tag lookups fail with [ClientError]
    only. *)
Definition selected (td : float) (rt : option (gmap string string))
    (c : Cluster) : bool :=
  float_lt (timestamp (ClusterCreateTime c)) td &&
  match rt with
  | Some d => if truthy rt then has_required_tags c d else true
  | None => true
  end.

(** The deleting loop of a kind, as [nuke] calls it. *)
Definition handler (td : float) (rt : option (gmap string string)) (k : kind) : M unit :=
  match k with
  | cluster => nuke_clusters redshift td rt
  | snapshot => nuke_snapshots redshift td
  | subnet => nuke_subnets redshift
  | param => nuke_param_groups redshift
  end.

(** The generator that loop iterates over. *)
Definition listing (td : float) (rt : option (gmap string string)) (k : kind)
    (yield : string → M unit) : M unit :=
  match k with
  | cluster => list_clusters redshift td rt yield
  | snapshot => list_snapshots redshift td yield
  | subnet => list_subnet redshift yield
  | param => list_cluster_params redshift yield
  end.

(** The delete operation that loop calls. *)
Definition delete_op (k : kind) : string → response unit :=
  match k with
  | cluster => delete_cluster redshift
  | snapshot => delete_cluster_snapshot redshift
  | subnet => delete_cluster_subnet_group redshift
  | param => delete_cluster_parameter_group redshift
  end.

(** The exception, if any, that ends the pagination of a kind. *)
Definition listing_failure (k : kind) : option exn :=
  match k with
  | cluster => failure (describe_clusters redshift)
  | snapshot => failure (describe_cluster_snapshots redshift)
  | subnet => failure (describe_cluster_subnet_groups redshift)
  | param => failure (describe_cluster_parameter_groups redshift)
  end.

Definition listing_result (k : kind) : response unit :=
  match listing_failure k with Some e => Raises e | None => Returns tt end.

Fixpoint first_listing_failure (ks : list kind) : option exn :=
  match ks with
  | [] => None
  | k :: ks' =>
      match listing_failure k with
      | Some e => Some e
      | None => first_listing_failure ks'
      end
  end.

(** The loop of kind [k] is entered: no earlier listing failed. *)
Definition reached (k : kind) : bool :=
  bool_decide (first_listing_failure (earlier k) = None).

(** Every failure of a tag lookup or of a delete is a [ClientError]. *)
Definition per_item_failures_caught : Prop :=
  fails_with_ClientError_only (list_tags_for_resource redshift) ∧
  ∀ k, fails_with_ClientError_only (delete_op k).

(** A listing failure stays within its kind: a kind whose own listing does
    not fail is handled by [nuke] in full, whatever happens to the other
    kinds. *)
Definition listing_failure_confined
    (td : float) (rt : option (gmap string string)) : Prop :=
  ∀ k, listing_failure k = None →
       deletes k (trace (nuke redshift td rt)) =
       deletes k (trace (handler td rt k)).

End Service.

(** ** Sample services *)

Definition seconds (z : Z) : float := Finite (inject_Z z).

Definition at_time (z : Z) : datetime := {| posix := inject_Z z |}.

Definition no_pages {A} : paginated A := {| pages := []; failure := None |}.

Definition succeeds : string → response unit := λ _, Returns tt.

Definition tags_of (l : list (string * string)) : response TagsResponse :=
  Returns {| TaggedResources := (λ kv, {| Key := kv.1; Value := kv.2 |}) <$> l |}.

(** Two clusters, one older and one younger than a threshold of 1000. *)
Definition aged_client : Client := {|
  describe_clusters :=
    {| pages := [[ {| ClusterIdentifier := "a"; ClusterCreateTime := at_time 500 |};
                   {| ClusterIdentifier := "b"; ClusterCreateTime := at_time 1500 |} ]];
       failure := None |};
  describe_cluster_snapshots := no_pages;
  describe_cluster_subnet_groups := no_pages;
  describe_cluster_parameter_groups := no_pages;
  list_tags_for_resource := λ _, tags_of [];
  delete_cluster := succeeds;
  delete_cluster_snapshot := succeeds;
  delete_cluster_subnet_group := succeeds;
  delete_cluster_parameter_group := succeeds
|}.

(** Three old clusters: one tagged as required, one tagged otherwise, one
    without tags. *)
Definition tagged_client : Client := {|
  describe_clusters :=
    {| pages := [[ {| ClusterIdentifier := "a"; ClusterCreateTime := at_time 500 |};
                   {| ClusterIdentifier := "b"; ClusterCreateTime := at_time 500 |};
                   {| ClusterIdentifier := "c"; ClusterCreateTime := at_time 500 |} ]];
       failure := None |};
  describe_cluster_snapshots := no_pages;
  describe_cluster_subnet_groups := no_pages;
  describe_cluster_parameter_groups := no_pages;
  list_tags_for_resource := λ id,
    if String.eqb id "a" then tags_of [("env", "prod")]
    else if String.eqb id "b" then tags_of [("env", "dev")]
    else tags_of [];
  delete_cluster := succeeds;
  delete_cluster_snapshot := succeeds;
  delete_cluster_subnet_group := succeeds;
  delete_cluster_parameter_group := succeeds
|}.

(** Two old clusters; the tags of the first cannot be read, the second is
    tagged as required. *)
Definition unreadable_tags_client : Client := {|
  describe_clusters :=
    {| pages := [[ {| ClusterIdentifier := "a"; ClusterCreateTime := at_time 500 |};
                   {| ClusterIdentifier := "b"; ClusterCreateTime := at_time 500 |} ]];
       failure := None |};
  describe_cluster_snapshots := no_pages;
  describe_cluster_subnet_groups := no_pages;
  describe_cluster_parameter_groups := no_pages;
  list_tags_for_resource := λ id,
    if String.eqb id "a" then Raises (ClientError "AccessDenied")
    else tags_of [("env", "prod")];
  delete_cluster := succeeds;
  delete_cluster_snapshot := succeeds;
  delete_cluster_subnet_group := succeeds;
  delete_cluster_parameter_group := succeeds
|}.

(** Items of all four kinds on several pages; for each kind the delete of
    the second item fails with a [ClientError]. *)
Definition flaky_client : Client := {|
  describe_clusters :=
    {| pages := [[ {| ClusterIdentifier := "c1"; ClusterCreateTime := at_time 100 |};
                   {| ClusterIdentifier := "c2"; ClusterCreateTime := at_time 200 |} ];
                 [ {| ClusterIdentifier := "c3"; ClusterCreateTime := at_time 300 |} ]];
       failure := None |};
  describe_cluster_snapshots :=
    {| pages := [[ {| SnapshotIdentifier := "s1"; SnapshotCreateTime := at_time 100 |} ];
                 [ {| SnapshotIdentifier := "s2"; SnapshotCreateTime := at_time 200 |};
                   {| SnapshotIdentifier := "s3"; SnapshotCreateTime := at_time 2000 |};
                   {| SnapshotIdentifier := "s4"; SnapshotCreateTime := at_time 300 |} ]];
       failure := None |};
  describe_cluster_subnet_groups :=
    {| pages := [[ {| ClusterSubnetGroupName := "n1" |};
                   {| ClusterSubnetGroupName := "n2" |};
                   {| ClusterSubnetGroupName := "n3" |} ]];
       failure := None |};
  describe_cluster_parameter_groups :=
    {| pages := [[ {| ParameterGroupName := "p1" |} ];
                 [ {| ParameterGroupName := "p2" |} ];
                 [ {| ParameterGroupName := "p3" |} ]];
       failure := None |};
  list_tags_for_resource := λ _, tags_of [];
  delete_cluster := λ id,
    if String.eqb id "c2" then Raises (ClientError "InvalidClusterState") else Returns tt;
  delete_cluster_snapshot := λ id,
    if String.eqb id "s2" then Raises (ClientError "InvalidClusterSnapshotState") else Returns tt;
  delete_cluster_subnet_group := λ id,
    if String.eqb id "n2" then Raises (ClientError "InvalidClusterSubnetGroupState") else Returns tt;
  delete_cluster_parameter_group := λ id,
    if String.eqb id "p2" then Raises (ClientError "InvalidClusterParameterGroupState") else Returns tt
|}.

(** The listing of clusters breaks after its first page; one old snapshot,
    one subnet group and one parameter group are there to be deleted. *)
Definition throttled_client : Client := {|
  describe_clusters :=
    {| pages := [[ {| ClusterIdentifier := "a"; ClusterCreateTime := at_time 500 |} ]];
       failure := Some (ClientError "Throttling") |};
  describe_cluster_snapshots :=
    {| pages := [[ {| SnapshotIdentifier := "s1"; SnapshotCreateTime := at_time 500 |} ]];
       failure := None |};
  describe_cluster_subnet_groups :=
    {| pages := [[ {| ClusterSubnetGroupName := "n1" |} ]]; failure := None |};
  describe_cluster_parameter_groups :=
    {| pages := [[ {| ParameterGroupName := "p1" |} ]]; failure := None |};
  list_tags_for_resource := λ _, tags_of [];
  delete_cluster := succeeds;
  delete_cluster_snapshot := succeeds;
  delete_cluster_subnet_group := succeeds;
  delete_cluster_parameter_group := succeeds
|}.


(** ** Further vocabulary *)

(** The line each loop prints before the identifier of a deleted item. *)
Definition notice (k : kind) : string :=
  match k with
  | cluster => "Nuke redshift cluster "
  | snapshot => "Nuke redshift snapshot "
  | subnet => "Nuke redshift subnet "
  | param => "Nuke redshift param "
  end.

(** Identifiers handed to [nuke_exceptions], in order. *)
Definition reports (t : list event) : list string :=
  omap (λ ev, match ev with EvReport _ id _ => Some id | _ => None end) t.

(** The tags of the response that carry the key [key]. *)
Definition tags_with_key (key : string) (tags : list Tag) : list Tag :=
  filter (λ tag, Key tag = key) tags.

(** Identifiers of the items of kind [k] that the listing holds and that
    pass the age test of that kind (subnet groups and parameter groups have
    none). *)
Definition eligible_ids (redshift : Client) (td : float) (k : kind) : list string :=
  match k with
  | cluster =>
      ClusterIdentifier <$>
        filter (old_cluster td) (concat (pages (describe_clusters redshift)))
  | snapshot =>
      SnapshotIdentifier <$>
        filter (old_snapshot td) (concat (pages (describe_cluster_snapshots redshift)))
  | subnet =>
      ClusterSubnetGroupName <$>
        concat (pages (describe_cluster_subnet_groups redshift))
  | param =>
      ParameterGroupName <$>
        concat (pages (describe_cluster_parameter_groups redshift))
  end.

(** [m] stops at [ev]: if [ev] occurs in the run, it is its last event and
    the run raises [e]. *)
Definition stops_at {A} (ev : event) (e : exn) (m : M A) : Prop :=
  ev ∈ trace m → result m = Raises e ∧ last (trace m) = Some ev.

(** Two paginated listings hold the same items in the same order and end
    the same way, however they are cut into pages. *)
Definition same_listing {A} (p p' : paginated A) : Prop :=
  concat (pages p) = concat (pages p') ∧ failure p = failure p'.

(** Two services that differ at most in how their listings are cut into
    pages. *)
Definition same_items (r r' : Client) : Prop :=
  same_listing (describe_clusters r) (describe_clusters r') ∧
  same_listing (describe_cluster_snapshots r) (describe_cluster_snapshots r') ∧
  same_listing (describe_cluster_subnet_groups r) (describe_cluster_subnet_groups r') ∧
  same_listing (describe_cluster_parameter_groups r)
               (describe_cluster_parameter_groups r') ∧
  (∀ id, list_tags_for_resource r id = list_tags_for_resource r' id) ∧
  (∀ id, delete_cluster r id = delete_cluster r' id) ∧
  (∀ id, delete_cluster_snapshot r id = delete_cluster_snapshot r' id) ∧
  (∀ id, delete_cluster_subnet_group r id = delete_cluster_subnet_group r' id) ∧
  (∀ id, delete_cluster_parameter_group r id = delete_cluster_parameter_group r' id).

(** The whole of a listing served in one page. *)
Definition one_page {A} (p : paginated A) : paginated A :=
  {| pages := [concat (pages p)]; failure := failure p |}.

Definition one_page_client (r : Client) : Client := {|
  describe_clusters := one_page (describe_clusters r);
  describe_cluster_snapshots := one_page (describe_cluster_snapshots r);
  describe_cluster_subnet_groups := one_page (describe_cluster_subnet_groups r);
  describe_cluster_parameter_groups := one_page (describe_cluster_parameter_groups r);
  list_tags_for_resource := list_tags_for_resource r;
  delete_cluster := delete_cluster r;
  delete_cluster_snapshot := delete_cluster_snapshot r;
  delete_cluster_subnet_group := delete_cluster_subnet_group r;
  delete_cluster_parameter_group := delete_cluster_parameter_group r
|}.

(** Three old clusters and one old snapshot behind a connection that
    breaks: the delete of "c2" and the tag lookup of "c3" raise
    [EndpointConnectionError]. *)
Definition offline_client : Client := {|
  describe_clusters :=
    {| pages := [[ {| ClusterIdentifier := "c1"; ClusterCreateTime := at_time 100 |};
                   {| ClusterIdentifier := "c2"; ClusterCreateTime := at_time 200 |};
                   {| ClusterIdentifier := "c3"; ClusterCreateTime := at_time 300 |} ]];
       failure := None |};
  describe_cluster_snapshots :=
    {| pages := [[ {| SnapshotIdentifier := "s1"; SnapshotCreateTime := at_time 100 |} ]];
       failure := None |};
  describe_cluster_subnet_groups := no_pages;
  describe_cluster_parameter_groups := no_pages;
  list_tags_for_resource := λ id,
    if String.eqb id "c3" then Raises (EndpointConnectionError "Could not connect")
    else tags_of [("env", "dev"); ("team", "data"); ("env", "prod")];
  delete_cluster := λ id,
    if String.eqb id "c2" then Raises (EndpointConnectionError "Could not connect")
    else Returns tt;
  delete_cluster_snapshot := succeeds;
  delete_cluster_subnet_group := succeeds;
  delete_cluster_parameter_group := succeeds
|}.

(** The call raised. *)
Definition raised {A} (r : response A) : bool :=
  match r with Raises _ => true | Returns _ => false end.

(** ** The constructor *)




(** Every one of the four loops is entered once, in the order of [nuke]:
    each loop starts by requesting its paginator, and does so once. *)
Definition every_handler_invoked_once
    (redshift : Client) (td : float) (rt : option (gmap string string)) : Prop :=
  paginations (trace (nuke redshift td rt)) = all_kinds.

(** * Reasoning about runs *)

Section Runs.
Context {A B : Type}.

Lemma bind_Returns (t : list event) (a : A) (f : A → M B) :
  ((t, Returns a) ≫= f) = (t ++ trace (f a), result (f a)).
Proof. unfold mbind, M_bind, trace, result. by destruct (f a). Qed.

Lemma bind_Raises (t : list event) (e : exn) (f : A → M B) :
  ((t, Raises e) : M A) ≫= f = (t, Raises e).
Proof. done. Qed.

Lemma trace_bind (m : M A) (f : A → M B) :
  trace (m ≫= f) =
  trace m ++ match result m with Returns a => trace (f a) | Raises _ => [] end.
Proof.
  destruct m as [t [a|e]]; [by rewrite bind_Returns|].
  by rewrite bind_Raises, app_nil_r.
Qed.

Lemma result_bind (m : M A) (f : A → M B) :
  result (m ≫= f) =
  match result m with Returns a => result (f a) | Raises e => Raises e end.
Proof. destruct m as [t [a|e]]; [by rewrite bind_Returns|done]. Qed.

Lemma run_eta (m : M A) : m = (trace m, result m).
Proof. by destruct m. Qed.

Lemma run_eq (m m' : M A) : trace m = trace m' → result m = result m' → m = m'.
Proof. destruct m, m'; simpl; congruence. Qed.

End Runs.

Lemma bind_assoc {A B C} (m : M A) (f : A → M B) (g : B → M C) :
  (m ≫= f) ≫= g = m ≫= (λ a, f a ≫= g).
Proof.
  destruct m as [t [a|e]]; [|done].
  rewrite !bind_Returns. destruct (f a) as [t' [b|e']]; cbn [trace result fst snd].
  - rewrite !bind_Returns. cbn [trace result fst snd]. by rewrite app_assoc.
  - by rewrite !bind_Raises.
Qed.

Lemma ret_bind {A B} (a : A) (f : A → M B) : mret a ≫= f = f a.
Proof. unfold mret, M_ret. rewrite bind_Returns. simpl. by destruct (f a). Qed.

Lemma bind_ext {A B} (m : M A) (f g : A → M B) :
  (∀ a, f a = g a) → m ≫= f = m ≫= g.
Proof. intros H. destruct m as [t [a|e]]; [|done]. rewrite !bind_Returns. by rewrite H. Qed.

Lemma for_each_ext {A} (l : list A) (f g : A → M unit) :
  (∀ x, x ∈ l → f x = g x) → for_each l f = for_each l g.
Proof.
  induction l as [|x l IH]; intros H; [done|]. cbn [for_each].
  rewrite (H x) by set_solver. apply bind_ext. intros _. apply IH. set_solver.
Qed.

Lemma for_each_app {A} (l1 l2 : list A) (f : A → M unit) :
  for_each (l1 ++ l2) f = (for_each l1 f ;; for_each l2 f).
Proof.
  induction l1 as [|x l1 IH]; cbn [for_each app].
  - by rewrite ret_bind.
  - rewrite bind_assoc. apply bind_ext. intros _. apply IH.
Qed.

Lemma for_each_concat {A} (ls : list (list A)) (f : A → M unit) :
  for_each ls (λ l, for_each l f) = for_each (concat ls) f.
Proof.
  induction ls as [|l ls IH]; [done|]. cbn [for_each concat].
  rewrite for_each_app. apply bind_ext. intros _. apply IH.
Qed.

(** ** The common shape of the four listers *)

Lemma paginate_lister {A} k (p : paginated A) keep ident yield :
  paginate k p (λ page, for_each page (item keep ident yield)) =
  lister k p keep ident yield.
Proof. unfold paginate, lister. by rewrite for_each_concat. Qed.

Lemma consume_app body t1 t2 :
  consume body (t1 ++ t2) = consume body t1 ++ consume body t2.
Proof. apply bind_app. Qed.

Lemma consume_no_yield body t :
  yields t = [] → consume body t = t.
Proof.
  induction t as [|ev t IH]; [done|]. intros H.
  destruct ev; cbn in H; try discriminate;
    unfold consume in *; rewrite bind_cons; simpl; f_equal; auto.
Qed.

Lemma fuses_bind {A B} body (m m' : M A) (f f' : A → M B) :
  fuses body m m' → (∀ a, fuses body (f a) (f' a)) →
  fuses body (m ≫= f) (m' ≫= f').
Proof.
  unfold fuses. intros -> Hf. apply run_eq.
  - rewrite !trace_bind, consume_app. cbn [trace result fst snd].
    f_equal. destruct (result m') as [a|e]; [|done]. by rewrite (Hf a).
  - rewrite !result_bind. cbn [trace result fst snd].
    destruct (result m') as [a|e]; [|done]. by rewrite (Hf a).
Qed.

Lemma fuses_silent {A} body (m : M A) : yields (trace m) = [] → fuses body m m.
Proof. intros H. unfold fuses. rewrite consume_no_yield by done. apply run_eta. Qed.

Lemma fuses_yield body id :
  result (body id) = Returns tt → fuses body (body id) (yield_event id).
Proof.
  intros H. unfold fuses, consume. cbn. rewrite app_nil_r, <- H. apply run_eta.
Qed.

Section Fusion.
Context {A : Type} (keep : A → M bool) (ident : A → string).
Context (body : string → M unit).
Hypothesis keep_silent : ∀ x, yields (trace (keep x)) = [].
Hypothesis body_returns : ∀ id, result (body id) = Returns tt.

Lemma item_fusion x :
  fuses body (item keep ident body x) (item keep ident yield_event x).
Proof.
  apply fuses_bind; [by apply fuses_silent|].
  intros []; [by apply fuses_yield | by apply fuses_silent].
Qed.

Lemma for_each_fusion l :
  fuses body (for_each l (item keep ident body))
             (for_each l (item keep ident yield_event)).
Proof.
  induction l as [|x l IH]; [by apply fuses_silent|].
  cbn [for_each]. apply fuses_bind; [apply item_fusion | done].
Qed.

Lemma lister_fusion k (p : paginated A) :
  fuses body (lister k p keep ident body) (lister k p keep ident yield_event).
Proof.
  unfold lister. apply fuses_bind; [by apply fuses_silent|]. intros _.
  apply fuses_bind; [apply for_each_fusion|]. intros _.
  apply fuses_silent. by destruct (failure p).
Qed.

End Fusion.

(** ** The four listers are instances of [lister] *)

Section Listers.
Variable redshift : Client.

Lemma bind_ret_negb (m : M bool) (f : bool → M unit) :
  (skip ← (has ← m; mret (negb has)); f skip) = (has ← m; f (negb has)).
Proof. rewrite bind_assoc. apply bind_ext. intros b. by rewrite ret_bind. Qed.

Lemma list_clusters_lister time_delete required_tags yield :
  list_clusters redshift time_delete required_tags yield =
  lister cluster (describe_clusters redshift)
         (keep_cluster redshift time_delete required_tags) ClusterIdentifier yield.
Proof.
  rewrite <- paginate_lister. unfold list_clusters, paginate.
  apply bind_ext. intros _. f_equal.
  apply for_each_ext. intros page _. apply for_each_ext. intros c _.
  unfold item, keep_cluster.
  destruct (float_lt _ _); [|by rewrite ret_bind].
  destruct required_tags as [d|]; [|by rewrite !ret_bind].
  destruct (truthy (Some d)); [|by rewrite !ret_bind].
  rewrite bind_ret_negb. apply bind_ext. by intros [].
Qed.

Lemma list_snapshots_lister time_delete yield :
  list_snapshots redshift time_delete yield =
  lister snapshot (describe_cluster_snapshots redshift)
         (keep_snapshot time_delete) SnapshotIdentifier yield.
Proof.
  rewrite <- paginate_lister. unfold list_snapshots, paginate.
  apply bind_ext. intros _. f_equal.
  apply for_each_ext. intros page _. apply for_each_ext. intros s _.
  unfold item, keep_snapshot. rewrite ret_bind. by destruct (float_lt _ _).
Qed.

Lemma list_subnet_lister yield :
  list_subnet redshift yield =
  lister subnet (describe_cluster_subnet_groups redshift)
         keep_all ClusterSubnetGroupName yield.
Proof.
  rewrite <- paginate_lister. unfold list_subnet, paginate.
  apply bind_ext. intros _. f_equal.
  apply for_each_ext. intros page _. apply for_each_ext. intros s _.
  unfold item, keep_all. by rewrite ret_bind.
Qed.

Lemma list_cluster_params_lister yield :
  list_cluster_params redshift yield =
  lister param (describe_cluster_parameter_groups redshift)
         keep_all ParameterGroupName yield.
Proof.
  rewrite <- paginate_lister. unfold list_cluster_params, paginate.
  apply bind_ext. intros _. f_equal.
  apply for_each_ext. intros page _. apply for_each_ext. intros s _.
  unfold item, keep_all. by rewrite ret_bind.
Qed.

End Listers.

(** ** The common shape of the four deleting loops *)

Lemma delete_body_run k delete notice label id :
  delete_body k delete notice label id =
  match delete id with
  | Returns _ => ([EvDelete k id; EvPrint (notice +:+ id)], Returns tt)
  | Raises (ClientError msg) =>
      ([EvDelete k id; EvReport label id (ClientError msg)], Returns tt)
  | Raises e => ([EvDelete k id], Raises e)
  end.
Proof. unfold delete_body, call. by destruct (delete id) as [[]|[]]. Qed.

Lemma delete_body_returns k delete notice label id :
  fails_with_ClientError_only delete →
  result (delete_body k delete notice label id) = Returns tt.
Proof.
  intros H. rewrite delete_body_run.
  destruct (delete id) as [[]|[]] eqn:E; try done. by apply H in E.
Qed.

Lemma delete_body_deletes k delete notice label id :
  deletes k (trace (delete_body k delete notice label id)) = [id].
Proof.
  rewrite delete_body_run.
  destruct (delete id) as [[]|[]]; cbn; by rewrite decide_True.
Qed.

Lemma delete_body_elem k delete notice label id ev :
  ev ∈ trace (delete_body k delete notice label id) →
  ev = EvDelete k id ∨ (∃ s, ev = EvPrint s) ∨ (∃ l e, ev = EvReport l id e).
Proof.
  rewrite delete_body_run.
  destruct (delete id) as [[]|[]]; cbn; set_solver.
Qed.

Lemma nuke_clusters_body (redshift : Client) time_delete required_tags :
  nuke_clusters redshift time_delete required_tags =
  list_clusters redshift time_delete required_tags
    (delete_body cluster (delete_cluster redshift)
                 "Nuke redshift cluster " "redshift cluster").
Proof. reflexivity. Qed.

Lemma nuke_snapshots_body (redshift : Client) time_delete :
  nuke_snapshots redshift time_delete =
  list_snapshots redshift time_delete
    (delete_body snapshot (delete_cluster_snapshot redshift)
                 "Nuke redshift snapshot " "redshift snapshot").
Proof. reflexivity. Qed.

Lemma nuke_subnets_body (redshift : Client) :
  nuke_subnets redshift =
  list_subnet redshift
    (delete_body subnet (delete_cluster_subnet_group redshift)
                 "Nuke redshift subnet " "redshift subnet").
Proof. reflexivity. Qed.

Lemma nuke_param_groups_body (redshift : Client) :
  nuke_param_groups redshift =
  list_cluster_params redshift
    (delete_body param (delete_cluster_parameter_group redshift)
                 "Nuke redshift param " "redshift param").
Proof. reflexivity. Qed.

(** ** What a lister's run contains *)

Lemma for_each_trace_elem {A} (l : list A) (f : A → M unit) ev :
  ev ∈ trace (for_each l f) → ∃ x, x ∈ l ∧ ev ∈ trace (f x).
Proof.
  induction l as [|x l IH]; cbn [for_each]; [set_solver|].
  rewrite trace_bind, elem_of_app. intros [H|H]; [set_solver|].
  destruct (result (f x)); [|set_solver].
  destruct (IH H) as (y & ? & ?). set_solver.
Qed.

Lemma item_trace_elem {A} (keep : A → M bool) ident body (x : A) ev :
  ev ∈ trace (item keep ident body x) →
  ev ∈ trace (keep x) ∨
  (result (keep x) = Returns true ∧ ev ∈ trace (body (ident x))).
Proof.
  unfold item. rewrite trace_bind, elem_of_app. intros [H|H]; [by left|].
  destruct (result (keep x)) as [[]|]; set_solver.
Qed.

Lemma lister_trace_elem {A} k (p : paginated A) keep ident body ev :
  ev ∈ trace (lister k p keep ident body) →
  ev = EvPaginate k ∨
  ∃ x, x ∈ concat (pages p) ∧
       (ev ∈ trace (keep x) ∨
        (result (keep x) = Returns true ∧ ev ∈ trace (body (ident x)))).
Proof.
  unfold lister. rewrite trace_bind. cbn [emit trace result fst snd].
  rewrite elem_of_app, trace_bind, elem_of_app.
  intros [H|[H|H]]; [set_solver| |].
  - right. apply for_each_trace_elem in H as (x & Hx & H).
    exists x. split; [done|]. by apply item_trace_elem.
  - destruct (result (for_each _ _)); [|set_solver].
    destruct (failure p); set_solver.
Qed.

(** ** Runs of a lister whose decisions all return *)

Section PureKeep.
Context {A : Type} (keep : A → M bool) (ident : A → string) (keepb : A → bool).
Hypothesis keep_silent : ∀ x, yields (trace (keep x)) = [].

Lemma for_each_yields (l : list A) :
  (∀ x, x ∈ l → result (keep x) = Returns (keepb x)) →
  yields (trace (for_each l (item keep ident yield_event))) = ident <$> filter keepb l
  ∧ result (for_each l (item keep ident yield_event)) = Returns tt.
Proof.
  induction l as [|x l IH]; intros H; [done|]. cbn [for_each].
  destruct IH as [IH1 IH2]; [set_solver|].
  assert (Hx : result (keep x) = Returns (keepb x)) by set_solver.
  assert (Hr : result (item keep ident yield_event x) = Returns tt).
  { unfold item. rewrite result_bind, Hx. by destruct (keepb x). }
  assert (Hy : yields (trace (item keep ident yield_event x)) =
               if keepb x then [ident x] else []).
  { unfold item, yields. rewrite trace_bind, omap_app, Hx.
    fold (yields (trace (keep x))). rewrite keep_silent.
    by destruct (keepb x). }
  split.
  - unfold yields in *. rewrite trace_bind, omap_app, Hr, Hy, IH1.
    rewrite filter_cons. by destruct (keepb x).
  - by rewrite result_bind, Hr.
Qed.

Lemma lister_yields k (p : paginated A) :
  (∀ x, x ∈ concat (pages p) → result (keep x) = Returns (keepb x)) →
  yields (trace (lister k p keep ident yield_event)) =
    ident <$> filter keepb (concat (pages p))
  ∧ result (lister k p keep ident yield_event) =
    match failure p with Some e => Raises e | None => Returns tt end.
Proof.
  intros H. destruct (for_each_yields _ H) as [H1 H2].
  unfold lister. split.
  - unfold yields in *. rewrite trace_bind, omap_app. cbn [emit trace result fst snd].
    rewrite trace_bind, omap_app, H1, H2. cbn [omap list_omap app].
    destruct (failure p); cbn; by rewrite app_nil_r.
  - rewrite result_bind. cbn [emit trace result fst snd].
    rewrite result_bind, H2. by destruct (failure p).
Qed.

End PureKeep.

(** ** Deletions of a consumer against yields of the generator *)

Lemma deletes_app k t1 t2 : deletes k (t1 ++ t2) = deletes k t1 ++ deletes k t2.
Proof. apply omap_app. Qed.

Lemma deletes_nil_Forall k t :
  Forall (λ ev, ∀ id, ev ≠ EvDelete k id) t → deletes k t = [].
Proof.
  induction 1 as [|ev t H _ IH]; [done|]. cbn.
  destruct ev; try done. case_decide; [subst|done]. by destruct (H id).
Qed.

Lemma deletes_consume k body t :
  (∀ id, deletes k (trace (body id)) = [id]) →
  Forall (λ ev, ∀ id, ev ≠ EvDelete k id) t →
  deletes k (consume body t) = yields t.
Proof.
  intros Hb. induction 1 as [|ev t H _ IH]; [done|].
  unfold consume in *. rewrite bind_cons, deletes_app, IH.
  destruct ev; cbn; try done.
  - case_decide; [subst|done]. by destruct (H id).
  - by rewrite Hb.
Qed.

(** ** Floats *)

Lemma float_ge_not_lt x y : float_ge x y = true → float_lt x y = false.
Proof.
  destruct x as [a| | |], y as [b| | |]; cbn; try done.
  unfold Qleb, Qltb. rewrite Z.leb_le, Z.ltb_ge. lia.
Qed.

(** ** Dictionaries *)

Lemma items_loop_true tag_dict items :
  items_loop tag_dict items = true ↔
  ∀ key value, (key, value) ∈ items → tag_dict !! key = Some value.
Proof.
  induction items as [|[key value] items IH]; cbn [items_loop].
  - split; [|done]. intros _ ?? H. by apply elem_of_nil in H.
  - case_bool_decide as Hd.
    + split; [done|]. intros H. destruct Hd. apply H. left.
    + rewrite IH. split.
      * intros H k v [[= -> ->]|?]%elem_of_cons; auto.
      * intros H k v ?. apply H. by right.
Qed.

(** The loop over [required_tags.items()] succeeds exactly when every
    required key is present with the required value. *)
Lemma items_loop_subseteq (tag_dict required_tags : gmap string string) :
  items_loop tag_dict (map_to_list required_tags) = true ↔
  required_tags ⊆ tag_dict.
Proof.
  rewrite items_loop_true, map_subseteq_spec. split.
  - intros H k v Hk. apply H. by apply elem_of_map_to_list.
  - intros H k v Hk. apply H. by apply elem_of_map_to_list.
Qed.

Lemma truthy_Some_false (d : gmap string string) : truthy (Some d) = false ↔ d = ∅.
Proof.
  unfold truthy. rewrite negb_false_iff, Nat.eqb_eq. apply map_size_empty_iff.
Qed.

(** ** The decision taken for one cluster *)

Section ClusterDecision.
Variable redshift : Client.

Lemma _cluster_has_required_tags_run c d :
  _cluster_has_required_tags redshift c d =
  match list_tags_for_resource redshift (ClusterIdentifier c) with
  | Returns tags =>
      ([EvListTags (ClusterIdentifier c)],
       Returns (items_loop (tag_dict_of (TaggedResources tags)) (map_to_list d)))
  | Raises (ClientError msg) =>
      ([EvListTags (ClusterIdentifier c);
        EvPrint ("Failed to get tags for Redshift cluster "
                   +:+ ClusterIdentifier c +:+ ": " +:+ msg)],
       Returns false)
  | Raises e => ([EvListTags (ClusterIdentifier c)], Raises e)
  end.
Proof.
  unfold _cluster_has_required_tags, call.
  by destruct (list_tags_for_resource _ _) as [tags|[]].
Qed.

Lemma keep_cluster_elem td rt c ev :
  ev ∈ trace (keep_cluster redshift td rt c) →
  truthy rt = true ∧
  (ev = EvListTags (ClusterIdentifier c) ∨ ∃ s, ev = EvPrint s).
Proof.
  unfold keep_cluster. destruct (float_lt _ _); [|set_solver].
  destruct rt as [d|]; [|set_solver].
  destruct (truthy (Some d)); [|set_solver].
  rewrite _cluster_has_required_tags_run.
  destruct (list_tags_for_resource _ _) as [tags|[]]; cbn; set_solver.
Qed.

Lemma keep_cluster_true td rt c :
  result (keep_cluster redshift td rt c) = Returns true →
  float_lt (timestamp (ClusterCreateTime c)) td = true.
Proof. unfold keep_cluster. by destruct (float_lt _ _). Qed.

(** Without required tags the decision is the age test alone. *)
Lemma keep_cluster_untagged td rt c :
  truthy rt = false →
  keep_cluster redshift td rt c =
  mret (float_lt (timestamp (ClusterCreateTime c)) td).
Proof.
  unfold keep_cluster. intros H. destruct (float_lt _ _); [|done].
  destruct rt as [d|]; [|done]. by rewrite H.
Qed.

Lemma keep_cluster_result td rt c :
  fails_with_ClientError_only (list_tags_for_resource redshift) →
  result (keep_cluster redshift td rt c) = Returns (selected redshift td rt c).
Proof.
  intros H. unfold keep_cluster, selected, has_required_tags.
  destruct (float_lt _ _); [|done]. cbn [andb].
  destruct rt as [d|]; [|done]. destruct (truthy (Some d)); [|done].
  rewrite _cluster_has_required_tags_run.
  destruct (list_tags_for_resource _ _) as [tags|[]] eqn:E; try done.
  by apply H in E.
Qed.

(** [selected] keeps a cluster, when required tags are given, exactly when
    its tags were read and every required key is there with the required
    value. *)
Lemma has_required_tags_true c d :
  has_required_tags redshift c d = true ↔
  ∃ tags, list_tags_for_resource redshift (ClusterIdentifier c) = Returns tags ∧
          d ⊆ tag_dict_of (TaggedResources tags).
Proof.
  unfold has_required_tags.
  destruct (list_tags_for_resource _ _) as [tags|e].
  - rewrite items_loop_subseteq. split; [eauto|]. by intros (? & [= <-] & ?).
  - split; [done|]. by intros (? & ? & _).
Qed.

End ClusterDecision.

(** ** Membership in projections *)

Lemma elem_of_yields id t : id ∈ yields t ↔ EvYield id ∈ t.
Proof.
  unfold yields. rewrite list_elem_of_omap. split.
  - intros (ev & H & E). destruct ev; try done. by injection E as ->.
  - intros H. by exists (EvYield id).
Qed.


Lemma NoDup_fmap_elem_inj {A B} (f : A → B) (l : list A) x y :
  NoDup (f <$> l) → x ∈ l → y ∈ l → f x = f y → x = y.
Proof.
  induction l as [|z l IH]; [by intros _ ?%elem_of_nil|].
  rewrite fmap_cons, NoDup_cons, !elem_of_cons.
  intros [Hz Hl] [->|Hx] [->|Hy] E; auto.
  - destruct Hz. rewrite E. by apply list_elem_of_fmap_2.
  - destruct Hz. rewrite <- E. by apply list_elem_of_fmap_2.
Qed.

(** ** A deleting loop over a lister *)

Lemma yields_nil_quiet t : (∀ ev, ev ∈ t → quiet ev) → yields t = [].
Proof.
  induction t as [|ev t IH]; [done|]. intros H.
  assert (quiet ev) by (apply H; left).
  destruct ev; try done; apply IH; intros ??; apply H; by right.
Qed.

Lemma paginations_nil t : (∀ k, EvPaginate k ∉ t) → paginations t = [].
Proof.
  induction t as [|ev t IH]; [done|]. intros H.
  destruct ev; cbn; try (apply IH; intros ??; eapply H; by right).
  destruct (H k). left.
Qed.

Section Reaper.
Context {A : Type} (k : kind) (p : paginated A).
Context (keep : A → M bool) (ident : A → string).
Context (delete : string → response unit) (notice label : string).
Hypothesis keep_quiet : ∀ x ev, ev ∈ trace (keep x) → quiet ev.

Local Abbreviation reap := (lister k p keep ident (delete_body k delete notice label)).
Local Abbreviation listed := (lister k p keep ident yield_event).

Lemma listed_no_delete : Forall (λ ev, ∀ id, ev ≠ EvDelete k id) (trace listed).
Proof.
  apply Forall_forall. intros ev H id ->.
  apply lister_trace_elem in H as [|(x & _ & [H|[_ H]])]; [done| |].
  - by apply keep_quiet in H.
  - cbn in H. set_solver.
Qed.

(** With delete failures all caught, the loop is the listing with one
    delete attempt in place of each yield. *)
Lemma reap_fusion :
  fails_with_ClientError_only delete →
  reap = (consume (delete_body k delete notice label) (trace listed), result listed).
Proof.
  intros Hd. apply lister_fusion.
  - intros x. apply yields_nil_quiet, keep_quiet.
  - intros id. by apply delete_body_returns.
Qed.

Lemma reap_deletes :
  fails_with_ClientError_only delete →
  deletes k (trace reap) = yields (trace listed) ∧ result reap = result listed.
Proof.
  intros Hd. rewrite (reap_fusion Hd). cbn [trace result fst snd]. split; [|done].
  apply deletes_consume; [|apply listed_no_delete].
  intros id. apply delete_body_deletes.
Qed.

(** Whatever the failures, a delete is attempted only for an item that was
    kept, and only with the operation of the loop's own kind. *)
Lemma reap_delete_elem k' id :
  EvDelete k' id ∈ trace reap →
  k' = k ∧ ∃ x, x ∈ concat (pages p) ∧ ident x = id ∧ result (keep x) = Returns true.
Proof.
  intros H. apply lister_trace_elem in H as [|(x & Hx & [H|[Hk H]])]; [done| |].
  - by apply keep_quiet in H.
  - apply delete_body_elem in H as [[= -> ->]|[[s ?]|(l & e & ?)]]; [|done..].
    eauto.
Qed.


Lemma reap_paginations : paginations (trace reap) = [k].
Proof.
  unfold lister.
  rewrite trace_bind. cbn [emit trace result fst snd].
  unfold paginations. rewrite omap_app. cbn [omap list_omap app]. f_equal.
  apply paginations_nil. intros kk H.
  rewrite trace_bind, elem_of_app in H. destruct H as [H|H].
  - apply for_each_trace_elem in H as (x & _ & H).
    apply item_trace_elem in H as [H|[_ H]].
    + by apply keep_quiet in H.
    + apply delete_body_elem in H as [|[[]|(?&?&?)]]; done.
  - destruct (result _); [|set_solver]. destruct (failure p); set_solver.
Qed.

End Reaper.

(** ** The four resource kinds side by side *)

Section Kinds.
Variable redshift : Client.

Lemma keep_cluster_quiet td rt c ev :
  ev ∈ trace (keep_cluster redshift td rt c) → quiet ev.
Proof. intros [_ [->|[s ->]]]%keep_cluster_elem; done. Qed.

Lemma keep_snapshot_quiet td s ev : ev ∈ trace (keep_snapshot td s) → quiet ev.
Proof. by intros ?%elem_of_nil. Qed.

Lemma keep_all_quiet {A} (x : A) ev : ev ∈ trace (keep_all x) → quiet ev.
Proof. by intros ?%elem_of_nil. Qed.

Lemma handler_deletes td rt k :
  fails_with_ClientError_only (delete_op redshift k) →
  deletes k (trace (handler redshift td rt k)) = yields (trace (listing redshift td rt k yield_event))
  ∧ result (handler redshift td rt k) = result (listing redshift td rt k yield_event).
Proof.
  destruct k; cbn [handler listing delete_op]; intros H.
  - rewrite nuke_clusters_body, !list_clusters_lister.
    by apply reap_deletes, H; apply keep_cluster_quiet.
  - rewrite nuke_snapshots_body, !list_snapshots_lister.
    by apply reap_deletes, H; apply keep_snapshot_quiet.
  - rewrite nuke_subnets_body, !list_subnet_lister.
    by apply reap_deletes, H; apply keep_all_quiet.
  - rewrite nuke_param_groups_body, !list_cluster_params_lister.
    by apply reap_deletes, H; apply keep_all_quiet.
Qed.


Lemma handler_delete_kind td rt k k' id :
  EvDelete k' id ∈ trace (handler redshift td rt k) → k' = k.
Proof.
  destruct k; cbn [handler]; intros H.
  - rewrite nuke_clusters_body, list_clusters_lister in H.
    by apply reap_delete_elem in H as [? _]; [|apply keep_cluster_quiet].
  - rewrite nuke_snapshots_body, list_snapshots_lister in H.
    by apply reap_delete_elem in H as [? _]; [|apply keep_snapshot_quiet].
  - rewrite nuke_subnets_body, list_subnet_lister in H.
    by apply reap_delete_elem in H as [? _]; [|apply keep_all_quiet].
  - rewrite nuke_param_groups_body, list_cluster_params_lister in H.
    by apply reap_delete_elem in H as [? _]; [|apply keep_all_quiet].
Qed.

Lemma handler_paginations td rt k : paginations (trace (handler redshift td rt k)) = [k].
Proof.
  destruct k; cbn [handler].
  - rewrite nuke_clusters_body, list_clusters_lister.
    apply reap_paginations, keep_cluster_quiet.
  - rewrite nuke_snapshots_body, list_snapshots_lister.
    apply reap_paginations, keep_snapshot_quiet.
  - rewrite nuke_subnets_body, list_subnet_lister.
    apply reap_paginations. intros x. apply keep_all_quiet.
  - rewrite nuke_param_groups_body, list_cluster_params_lister.
    apply reap_paginations. intros x. apply keep_all_quiet.
Qed.

(** *** What each generator yields *)

Lemma list_clusters_yields td rt :
  fails_with_ClientError_only (list_tags_for_resource redshift) →
  yields (trace (list_clusters redshift td rt yield_event)) =
    ClusterIdentifier <$>
      filter (selected redshift td rt) (concat (pages (describe_clusters redshift)))
  ∧ result (list_clusters redshift td rt yield_event) = listing_result redshift cluster.
Proof.
  intros H. rewrite list_clusters_lister. apply lister_yields.
  - intros x. apply yields_nil_quiet. intros ev. apply keep_cluster_quiet.
  - intros x _. by apply keep_cluster_result.
Qed.

Lemma list_clusters_untagged_yields td rt :
  truthy rt = false →
  yields (trace (list_clusters redshift td rt yield_event)) =
    ClusterIdentifier <$>
      filter (old_cluster td) (concat (pages (describe_clusters redshift)))
  ∧ result (list_clusters redshift td rt yield_event) = listing_result redshift cluster.
Proof.
  intros H. rewrite list_clusters_lister. apply lister_yields.
  - intros x. apply yields_nil_quiet. intros ev. apply keep_cluster_quiet.
  - intros x _. by rewrite keep_cluster_untagged.
Qed.

Lemma list_snapshots_yields td :
  yields (trace (list_snapshots redshift td yield_event)) =
    SnapshotIdentifier <$>
      filter (old_snapshot td) (concat (pages (describe_cluster_snapshots redshift)))
  ∧ result (list_snapshots redshift td yield_event) = listing_result redshift snapshot.
Proof. rewrite list_snapshots_lister. by apply lister_yields. Qed.

Lemma filter_all {A} (l : list A) : filter (λ _, true) l = l.
Proof.
  induction l as [|x l IH]; [done|]. rewrite filter_cons_True by done. by f_equal.
Qed.

Lemma list_subnet_yields :
  yields (trace (list_subnet redshift yield_event)) =
    ClusterSubnetGroupName <$> concat (pages (describe_cluster_subnet_groups redshift))
  ∧ result (list_subnet redshift yield_event) = listing_result redshift subnet.
Proof.
  rewrite list_subnet_lister.
  rewrite <- (filter_all (concat _)) at 1. by apply lister_yields.
Qed.

Lemma list_cluster_params_yields :
  yields (trace (list_cluster_params redshift yield_event)) =
    ParameterGroupName <$> concat (pages (describe_cluster_parameter_groups redshift))
  ∧ result (list_cluster_params redshift yield_event) = listing_result redshift param.
Proof.
  rewrite list_cluster_params_lister.
  rewrite <- (filter_all (concat _)) at 1. by apply lister_yields.
Qed.

End Kinds.

(** ** The orchestrator *)

Lemma trace_seq {A B} (m : M A) (m' : M B) :
  trace (m ;; m') = trace m ++ if returns m then trace m' else [].
Proof. rewrite trace_bind. unfold returns. by destruct (result m). Qed.

Lemma result_seq {A B} (m : M A) (m' : M B) :
  result (m ;; m') =
  match result m with Returns _ => result m' | Raises e => Raises e end.
Proof. apply result_bind. Qed.

Lemma kinds_in_order_single t k :
  (∀ k' id, EvDelete k' id ∈ t → k' = k) → kinds_in_order t.
Proof.
  intros H i j k1 k2 id1 id2 H1 H2 Hr.
  apply list_elem_of_lookup_2, H in H1. apply list_elem_of_lookup_2, H in H2.
  subst. lia.
Qed.

Lemma kinds_in_order_nil : kinds_in_order [].
Proof. by intros i j k1 k2 id1 id2 H. Qed.

Lemma kinds_in_order_app t1 t2 r :
  (∀ k id, EvDelete k id ∈ t1 → rank k ≤ r) →
  (∀ k id, EvDelete k id ∈ t2 → r ≤ rank k) →
  kinds_in_order t1 → kinds_in_order t2 → kinds_in_order (t1 ++ t2).
Proof.
  intros Hlo Hhi O1 O2 i j k1 k2 id1 id2 H1 H2 Hr.
  apply lookup_app_Some in H1 as [H1|[Hi H1]];
    apply lookup_app_Some in H2 as [H2|[Hj H2]].
  - eauto.
  - apply lookup_lt_Some in H1. lia.
  - apply list_elem_of_lookup_2, Hhi in H1.
    apply list_elem_of_lookup_2, Hlo in H2. lia.
  - pose proof (O2 _ _ _ _ _ _ H1 H2 Hr). lia.
Qed.

Lemma bind_ret_unit (m : M unit) : (m ;; mret tt) = m.
Proof.
  destruct m as [t [[]|e]]; [|done].
  rewrite bind_Returns. cbn. by rewrite app_nil_r.
Qed.

Section Orchestrator.
Variable redshift : Client.
Variable td : float.
Variable rt : option (gmap string string).

Local Abbreviation h := (handler redshift td rt).

(** [nuke] runs the four loops one after the other. *)
Lemma nuke_for_each : nuke redshift td rt = for_each all_kinds h.
Proof.
  unfold nuke, all_kinds. cbn [for_each]. by rewrite bind_ret_unit.
Qed.

Lemma for_each_handlers_in_order ks :
  StronglySorted lt (rank <$> ks) → kinds_in_order (trace (for_each ks h)).
Proof.
  induction ks as [|k ks IH]; [intros _; apply kinds_in_order_nil|].
  rewrite fmap_cons. intros [Hs Hk]%StronglySorted_inv.
  cbn [for_each]. rewrite trace_seq.
  apply (kinds_in_order_app _ _ (rank k)).
  - intros k' id H. apply handler_delete_kind in H as ->. lia.
  - intros k' id H. destruct (returns (h k)); [|by apply elem_of_nil in H].
    apply for_each_trace_elem in H as (k2 & Hk2 & H).
    apply handler_delete_kind in H as ->.
    rewrite Forall_forall in Hk.
    apply Nat.lt_le_incl, Hk, list_elem_of_fmap_2, Hk2.
  - eapply kinds_in_order_single. intros k' id. apply handler_delete_kind.
  - destruct (returns (h k)); [by apply IH | apply kinds_in_order_nil].
Qed.

Lemma nuke_kinds_in_order : kinds_in_order (trace (nuke redshift td rt)).
Proof.
  rewrite nuke_for_each. apply for_each_handlers_in_order.
  unfold all_kinds. cbn. repeat (constructor; [|repeat constructor; lia]).
  constructor.
Qed.

Lemma nuke_trace_elem ev :
  ev ∈ trace (nuke redshift td rt) → ∃ k, ev ∈ trace (h k).
Proof.
  rewrite nuke_for_each. intros (k & _ & H)%for_each_trace_elem. eauto.
Qed.

Lemma for_each_handlers_paginations ks :
  paginations (trace (for_each ks h)) `prefix_of` ks ∧
  (result (for_each ks h) = Returns tt →
   paginations (trace (for_each ks h)) = ks ∧
   trace (for_each ks h) = ks ≫= (λ k, trace (h k))).
Proof.
  induction ks as [|k ks [IH1 IH2]]; [done|].
  assert (Hp : ∀ t, paginations (trace (h k) ++ t) = k :: paginations t).
  { intros t. unfold paginations. rewrite omap_app. fold paginations.
    by rewrite handler_paginations. }
  cbn [for_each]. rewrite trace_seq, result_seq, Hp.
  unfold returns. destruct (result (h k)) as [[]|e].
  - split; [exact (prefix_cons _ _ _ IH1)|].
    intros [-> ->]%IH2. by rewrite bind_cons.
  - split; [|done]. apply prefix_cons, prefix_nil.
Qed.

(** *** When every per-item failure is caught *)

Lemma handler_result k :
  per_item_failures_caught redshift → result (h k) = listing_result redshift k.
Proof.
  intros [Ht Hd].
  destruct (handler_deletes redshift td rt k (Hd k)) as [_ ->].
  destruct k; cbn [listing].
  - by apply list_clusters_yields.
  - apply list_snapshots_yields.
  - apply list_subnet_yields.
  - apply list_cluster_params_yields.
Qed.

Lemma handler_other_deletes k k' : k ≠ k' → deletes k (trace (h k')) = [].
Proof.
  intros Hk. apply deletes_nil_Forall, Forall_forall. intros ev H id ->.
  by apply handler_delete_kind in H.
Qed.

Lemma for_each_other_deletes k ks : k ∉ ks → deletes k (trace (for_each ks h)) = [].
Proof.
  intros Hk. apply deletes_nil_Forall, Forall_forall. intros ev H id ->.
  apply for_each_trace_elem in H as (k' & Hk' & H).
  apply handler_delete_kind in H as ->. done.
Qed.

Lemma for_each_handlers_result ks :
  per_item_failures_caught redshift →
  result (for_each ks h) =
  match first_listing_failure redshift ks with Some e => Raises e | None => Returns tt end.
Proof.
  intros H. induction ks as [|k ks IH]; [done|].
  cbn [for_each first_listing_failure].
  rewrite result_seq, (handler_result k H). unfold listing_result.
  by destruct (listing_failure redshift k).
Qed.

Lemma for_each_handlers_deletes k pre post :
  per_item_failures_caught redshift → k ∉ pre → k ∉ post →
  deletes k (trace (for_each (pre ++ k :: post) h)) =
  match first_listing_failure redshift pre with
  | None => deletes k (trace (h k))
  | Some _ => []
  end.
Proof.
  intros H Hpre Hpost. induction pre as [|k' pre IH].
  - cbn [app for_each first_listing_failure].
    rewrite trace_seq, deletes_app.
    destruct (returns (h k)); [|by rewrite app_nil_r].
    by rewrite for_each_other_deletes, app_nil_r.
  - apply not_elem_of_cons in Hpre as [Hk Hpre].
    cbn [app for_each first_listing_failure].
    rewrite trace_seq, deletes_app, handler_other_deletes by done.
    unfold returns. rewrite (handler_result k' H). unfold listing_result.
    destruct (listing_failure redshift k'); [done|]. by apply IH.
Qed.

Lemma nuke_result :
  per_item_failures_caught redshift →
  result (nuke redshift td rt) =
  match first_listing_failure redshift all_kinds with
  | Some e => Raises e
  | None => Returns tt
  end.
Proof. rewrite nuke_for_each. apply for_each_handlers_result. Qed.

Lemma nuke_deletes k :
  per_item_failures_caught redshift →
  deletes k (trace (nuke redshift td rt)) =
  if reached redshift k then deletes k (trace (h k)) else [].
Proof.
  intros H. rewrite nuke_for_each. unfold reached, all_kinds.
  assert (E : ∃ post, all_kinds = (earlier k ++ k :: post) ∧ (k ∉ earlier k) ∧ (k ∉ post)).
  { destruct k; cbn [earlier]; eexists; (split; [reflexivity|]); set_solver. }
  destruct E as (post & E & Hpre & Hpost). unfold all_kinds in E. rewrite E.
  rewrite (for_each_handlers_deletes k _ _ H Hpre Hpost).
  destruct (first_listing_failure redshift (earlier k)) eqn:F.
  - by rewrite bool_decide_false.
  - by rewrite bool_decide_true.
Qed.

End Orchestrator.

(** ** Clusters: who is yielded, who is deleted *)

Section Clusters.
Variable redshift : Client.

Lemma list_clusters_yield_elem td rt id :
  id ∈ yields (trace (list_clusters redshift td rt yield_event)) →
  ∃ c, c ∈ concat (pages (describe_clusters redshift)) ∧ ClusterIdentifier c = id ∧
       result (keep_cluster redshift td rt c) = Returns true.
Proof.
  rewrite elem_of_yields, list_clusters_lister.
  intros [|(x & Hx & [H|[Hk H]])]%lister_trace_elem; [done| |].
  - by apply keep_cluster_quiet in H.
  - apply list_elem_of_singleton in H as [= ->]. eauto.
Qed.

Lemma nuke_clusters_delete_elem td rt k id :
  EvDelete k id ∈ trace (nuke_clusters redshift td rt) →
  ∃ c, c ∈ concat (pages (describe_clusters redshift)) ∧ ClusterIdentifier c = id ∧
       result (keep_cluster redshift td rt c) = Returns true.
Proof.
  rewrite nuke_clusters_body, list_clusters_lister.
  intros [_ H]%reap_delete_elem; [done|]. apply keep_cluster_quiet.
Qed.

Lemma nuke_cluster_delete_elem td rt id :
  EvDelete cluster id ∈ trace (nuke redshift td rt) →
  EvDelete cluster id ∈ trace (nuke_clusters redshift td rt).
Proof.
  intros [k H]%nuke_trace_elem.
  by pose proof (handler_delete_kind _ _ _ _ _ _ H) as <-.
Qed.

End Clusters.

(** ** The sample services raise nothing but [ClientError]s *)

Ltac caught :=
  intros ? ?; cbn; unfold succeeds, tags_of;
  repeat (match goal with |- context [String.eqb ?a ?b] => destruct (String.eqb a b) end);
  intros [= <-]; reflexivity.

Lemma flaky_client_caught : per_item_failures_caught flaky_client.
Proof. split; [caught|intros []; caught]. Defined.

Lemma throttled_client_caught : per_item_failures_caught throttled_client.
Proof. split; [caught|intros []; caught]. Defined.

(** ** Further facts about the loops *)

Lemma for_each_head_deletes redshift td rt k ks :
  k ∉ ks →
  deletes k (trace (for_each (k :: ks) (handler redshift td rt))) =
  deletes k (trace (handler redshift td rt k)).
Proof.
  intros Hk. cbn [for_each]. rewrite trace_seq, deletes_app.
  destruct (returns _); [|by rewrite app_nil_r].
  by rewrite for_each_other_deletes, app_nil_r.
Qed.


Lemma tag_lookups_nil t : (∀ id, EvListTags id ∉ t) → tag_lookups t = [].
Proof.
  induction t as [|ev t IH]; [done|]. intros H.
  destruct ev; cbn; try (apply IH; intros ??; eapply H; by right).
  destruct (H id). left.
Qed.

Lemma handler_tag_lookup_elem redshift td rt k id :
  EvListTags id ∈ trace (handler redshift td rt k) → k = cluster ∧ truthy rt = true.
Proof.
  destruct k; cbn [handler]; intros H.
  - rewrite nuke_clusters_body, list_clusters_lister in H.
    apply lister_trace_elem in H as [|(x & _ & [H|[_ H]])]; [done| |].
    + by apply keep_cluster_elem in H as [? _].
    + apply delete_body_elem in H as [|[[]|(?&?&?)]]; done.
  - rewrite nuke_snapshots_body, list_snapshots_lister in H.
    apply lister_trace_elem in H as [|(x & _ & [H|[_ H]])]; [done| |].
    + by apply elem_of_nil in H.
    + apply delete_body_elem in H as [|[[]|(?&?&?)]]; done.
  - rewrite nuke_subnets_body, list_subnet_lister in H.
    apply lister_trace_elem in H as [|(x & _ & [H|[_ H]])]; [done| |].
    + by apply elem_of_nil in H.
    + apply delete_body_elem in H as [|[[]|(?&?&?)]]; done.
  - rewrite nuke_param_groups_body, list_cluster_params_lister in H.
    apply lister_trace_elem in H as [|(x & _ & [H|[_ H]])]; [done| |].
    + by apply elem_of_nil in H.
    + apply delete_body_elem in H as [|[[]|(?&?&?)]]; done.
Qed.

Lemma truthy_false_iff rt : truthy rt = false ↔ rt = None ∨ rt = Some ∅.
Proof.
  destruct rt as [d|]; [|by split; [left|]].
  rewrite truthy_Some_false. split; [by intros ->; right|].
  by intros [|[=]].
Qed.

Lemma for_each_handlers_paginations_cons redshift td rt k ks :
  paginations (trace (for_each (k :: ks) (handler redshift td rt))) =
  k :: if returns (handler redshift td rt k)
       then paginations (trace (for_each ks (handler redshift td rt)))
       else [].
Proof.
  cbn [for_each]. rewrite trace_seq. unfold paginations. rewrite omap_app.
  fold (paginations (trace (handler redshift td rt k))).
  rewrite handler_paginations. by destruct (returns _).
Qed.

(** A loop is entered exactly when every loop before it returned. *)
Lemma nuke_paginations redshift td rt :
  paginations (trace (nuke redshift td rt)) =
  cluster ::
  if returns (nuke_clusters redshift td rt) then
    snapshot ::
    if returns (nuke_snapshots redshift td) then
      subnet :: if returns (nuke_subnets redshift) then [param] else []
    else []
  else [].
Proof.
  rewrite nuke_for_each. unfold all_kinds.
  rewrite !for_each_handlers_paginations_cons. cbn [handler].
  by destruct (returns (nuke_param_groups redshift)).
Qed.

(** * The claims *)

(** C1 (the code departs from the claim).  With required tags
    [{"env": "prod"}] and threshold 1000, three clusters created at 500 and
    tagged [env=prod], [env=dev] and not at all: [nuke_clusters] deletes the
    cluster that carries the required tags and leaves the other two alone,
    where the claim has the first preserved and the other two deleted. *)
Theorem C1_required_tags_select_for_deletion :
  nuke_clusters tagged_client (seconds 1000) (Some {[ "env" := "prod" ]}) =
  ([EvPaginate cluster;
    EvListTags "a"; EvDelete cluster "a"; EvPrint "Nuke redshift cluster a";
    EvListTags "b";
    EvListTags "c"],
   Returns tt).
Proof. vm_compute. reflexivity. Qed.

(** C2 (the code departs from the claim).  With required tags
    [{"env": "prod"}] and threshold 1000, cluster "a" (created at 500) whose
    tag lookup raises a [ClientError], followed by cluster "b" tagged as
    required: the failure is printed, "a" is skipped rather than deleted,
    and the loop goes on to "b". *)
Theorem C2_tag_lookup_failure_skips_cluster :
  nuke_clusters unreadable_tags_client (seconds 1000) (Some {[ "env" := "prod" ]}) =
  ([EvPaginate cluster;
    EvListTags "a";
    EvPrint "Failed to get tags for Redshift cluster a: AccessDenied";
    EvListTags "b"; EvDelete cluster "b"; EvPrint "Nuke redshift cluster b"],
   Returns tt).
Proof. vm_compute. reflexivity. Qed.

(** C3.  A cluster whose creation timestamp is greater than or equal to
    the threshold is, whatever [required_tags] is, neither yielded by
    [list_clusters] nor passed to [delete_cluster] by [nuke_clusters] or by
    [nuke].  Identifiers are unique in the listing, as the data model
    has it. *)
Theorem C3_young_cluster_never_deleted
    (redshift : Client) (td : float) (rt : option (gmap string string))
    (c : Cluster) :
  NoDup (ClusterIdentifier <$> concat (pages (describe_clusters redshift))) →
  c ∈ concat (pages (describe_clusters redshift)) →
  float_ge (timestamp (ClusterCreateTime c)) td = true →
  (ClusterIdentifier c ∉ yields (trace (list_clusters redshift td rt yield_event)))
  ∧ (EvDelete cluster (ClusterIdentifier c) ∉ trace (nuke_clusters redshift td rt))
  ∧ (EvDelete cluster (ClusterIdentifier c) ∉ trace (nuke redshift td rt)).
Proof.
  intros Hnd Hc Hge. apply float_ge_not_lt in Hge.
  assert (Hno : ∀ c', c' ∈ concat (pages (describe_clusters redshift)) →
                      ClusterIdentifier c' = ClusterIdentifier c →
                      result (keep_cluster redshift td rt c') ≠ Returns true).
  { intros c' Hc' E Hk.
    rewrite (NoDup_fmap_elem_inj _ _ _ _ Hnd Hc' Hc E) in Hk.
    apply keep_cluster_true in Hk. congruence. }
  split; [|split].
  - intros (c' & ? & ? & ?)%list_clusters_yield_elem. by eapply Hno.
  - intros (c' & ? & ? & ?)%nuke_clusters_delete_elem. by eapply Hno.
  - intros (c' & ? & ? & ?)%nuke_cluster_delete_elem%nuke_clusters_delete_elem.
    by eapply Hno.
Qed.

Lemma C3_young_cluster_never_deleted_witness :
  ("b" ∉ yields (trace (list_clusters aged_client (seconds 1000) None yield_event)))
  ∧ (EvDelete cluster "b" ∉ trace (nuke_clusters aged_client (seconds 1000) None))
  ∧ (EvDelete cluster "b" ∉ trace (nuke aged_client (seconds 1000) None)).
Proof.
  apply (C3_young_cluster_never_deleted aged_client (seconds 1000) None
           {| ClusterIdentifier := "b"; ClusterCreateTime := at_time 1500 |}).
  - apply (bool_decide_unpack _). vm_compute. exact I.
  - cbn. repeat constructor.
  - reflexivity.
Defined.





(** C6, as stated, fails: when the listing of clusters raises, [nuke]
    raises with it and the snapshot that [nuke_snapshots] would delete is
    never reached. *)
Lemma C6_listing_failure_aborts_later_kinds :
  result (nuke throttled_client (seconds 1000) None) = Raises (ClientError "Throttling")
  ∧ deletes snapshot (trace (nuke_snapshots throttled_client (seconds 1000))) = ["s1"]
  ∧ deletes snapshot (trace (nuke throttled_client (seconds 1000) None)) = []
  ∧ ¬ listing_failure_confined throttled_client (seconds 1000) None.
Proof.
  repeat split; try reflexivity.
  intros H. specialize (H snapshot eq_refl). vm_compute in H. discriminate.
Qed.

(** C6, amended.  When every per-item failure (delete or tag lookup) is a
    [ClientError], no exception leaves [nuke] unless a listing fails; the
    first listing failure, in the order of the kinds, leaves [nuke], and it
    aborts the rest of that kind and every later kind: a kind's deletes are
    those of its own loop if no earlier listing failed, and none
    otherwise. *)
Theorem C6_only_listing_failures_leave_nuke
    (redshift : Client) (td : float) (rt : option (gmap string string)) :
  per_item_failures_caught redshift →
  result (nuke redshift td rt) =
    match first_listing_failure redshift all_kinds with
    | Some e => Raises e
    | None => Returns tt
    end
  ∧ ∀ k, deletes k (trace (nuke redshift td rt)) =
         if reached redshift k then deletes k (trace (handler redshift td rt k))
         else [].
Proof.
  intros H. split; [by apply nuke_result|]. intros k. by apply nuke_deletes.
Qed.

Lemma C6_only_listing_failures_leave_nuke_witness :
  result (nuke flaky_client (seconds 1000) None) = Returns tt
  ∧ deletes snapshot (trace (nuke throttled_client (seconds 1000) None)) = [].
Proof.
  split.
  - apply (C6_only_listing_failures_leave_nuke flaky_client (seconds 1000) None
             flaky_client_caught).
  - destruct (C6_only_listing_failures_leave_nuke throttled_client (seconds 1000) None
                throttled_client_caught) as [_ H].
    rewrite H. reflexivity.
Defined.



(** C8, as stated, fails: when the listing of clusters raises, the loop
    over clusters is the only one [nuke] enters; the loops over snapshots,
    subnet groups and parameter groups are not run at all. *)
Lemma C8_listing_failure_skips_later_handlers :
  paginations (trace (nuke throttled_client (seconds 1000) None)) = [cluster]
  ∧ ¬ every_handler_invoked_once throttled_client (seconds 1000) None.
Proof.
  split; [reflexivity|].
  unfold every_handler_invoked_once. vm_compute. discriminate.
Qed.

(** C8, amended.  [nuke] runs the loops in the order clusters, snapshots,
    subnet groups, parameter groups, each at most once and each exactly
    when every loop before it returned without raising: in its trace no
    delete of a later kind comes before a delete of an earlier kind, the
    paginators are requested in that order, and when [nuke] returns each
    loop has run exactly once, the trace being the four loops' traces one
    after the other. *)
Theorem C8_fixed_order_of_kinds
    (redshift : Client) (td : float) (rt : option (gmap string string)) :
  (∀ i j k1 k2 id1 id2,
     trace (nuke redshift td rt) !! i = Some (EvDelete k1 id1) →
     trace (nuke redshift td rt) !! j = Some (EvDelete k2 id2) →
     rank k1 < rank k2 → i < j)
  ∧ paginations (trace (nuke redshift td rt)) `prefix_of`
      [cluster; snapshot; subnet; param]
  ∧ (result (nuke redshift td rt) = Returns tt →
     paginations (trace (nuke redshift td rt)) = [cluster; snapshot; subnet; param]
     ∧ trace (nuke redshift td rt) =
         trace (nuke_clusters redshift td rt) ++
         trace (nuke_snapshots redshift td) ++
         trace (nuke_subnets redshift) ++
         trace (nuke_param_groups redshift))
  ∧ paginations (trace (nuke redshift td rt)) =
      cluster ::
      (if returns (nuke_clusters redshift td rt) then
         snapshot ::
         (if returns (nuke_snapshots redshift td) then
            subnet :: (if returns (nuke_subnets redshift) then [param] else [])
          else [])
       else []).
Proof.
  split; [apply nuke_kinds_in_order|].
  split; [|split; [|apply nuke_paginations]].
  - rewrite nuke_for_each.
    by destruct (for_each_handlers_paginations redshift td rt all_kinds) as [H1 _].
  - rewrite nuke_for_each.
    destruct (for_each_handlers_paginations redshift td rt all_kinds) as [_ H2].
    intros [E1 E2]%H2. split; [done|].
    rewrite E2. cbn. by rewrite app_nil_r.
Qed.

Lemma C8_fixed_order_of_kinds_witness :
  5 < 8
  ∧ paginations (trace (nuke flaky_client (seconds 1000) None)) =
      [cluster; snapshot; subnet; param].
Proof.
  destruct (C8_fixed_order_of_kinds flaky_client (seconds 1000) None)
    as (Ho & _ & Hr & _).
  split.
  - apply (Ho 5 8 cluster snapshot "c3" "s1"); [reflexivity|reflexivity|cbn; lia].
  - apply Hr. reflexivity.
Defined.

(** C9.  When [required_tags] is [None] or the empty dict, no tag lookup is
    made, by [list_clusters], by [nuke_clusters] or by [nuke], and the
    identifiers yielded are those of the clusters created strictly before
    the threshold, in listing order. *)
Theorem C9_no_tag_lookup_without_required_tags
    (redshift : Client) (td : float) (rt : option (gmap string string)) :
  rt = None ∨ rt = Some ∅ →
  tag_lookups (trace (list_clusters redshift td rt yield_event)) = []
  ∧ tag_lookups (trace (nuke_clusters redshift td rt)) = []
  ∧ tag_lookups (trace (nuke redshift td rt)) = []
  ∧ yields (trace (list_clusters redshift td rt yield_event)) =
      ClusterIdentifier <$>
        filter (old_cluster td) (concat (pages (describe_clusters redshift))).
Proof.
  intros Hrt%truthy_false_iff.
  split; [|split; [|split]].
  - apply tag_lookups_nil. intros id H. rewrite list_clusters_lister in H.
    apply lister_trace_elem in H as [|(x & _ & [H|[_ H]])]; [done| |].
    + apply keep_cluster_elem in H as [? _]. congruence.
    + by apply list_elem_of_singleton in H.
  - apply tag_lookups_nil. intros id H.
    apply (handler_tag_lookup_elem redshift td rt cluster) in H as [_ ?].
    congruence.
  - apply tag_lookups_nil. intros id [k H]%nuke_trace_elem.
    apply handler_tag_lookup_elem in H as [_ ?]. congruence.
  - by apply list_clusters_untagged_yields.
Qed.

Lemma C9_no_tag_lookup_without_required_tags_witness :
  tag_lookups (trace (nuke tagged_client (seconds 1000) (Some ∅))) = []
  ∧ yields (trace (list_clusters tagged_client (seconds 1000) (Some ∅) yield_event)) =
      ["a"; "b"; "c"].
Proof.
  destruct (C9_no_tag_lookup_without_required_tags tagged_client (seconds 1000) (Some ∅))
    as (_ & _ & H1 & H2).
  - by right.
  - split; [exact H1|]. rewrite H2. reflexivity.
Defined.



(** * Beyond the claims *)

(** ** The tags of a cluster *)

Lemma tag_dict_of_snoc tags tag :
  tag_dict_of (tags ++ [tag]) = <[Key tag := Value tag]> (tag_dict_of tags).
Proof. unfold tag_dict_of. by rewrite foldl_app. Qed.

Lemma tag_dict_of_lookup (tags : list Tag) (key : string) :
  tag_dict_of tags !! key = Value <$> last (tags_with_key key tags).
Proof.
  unfold tags_with_key.
  induction tags as [|tag tags IH] using rev_ind; [done|].
  rewrite tag_dict_of_snoc, filter_app, last_app.
  destruct (decide (Key tag = key)) as [E|E].
  - rewrite filter_cons_True by done. cbn. rewrite <- E. apply lookup_insert_eq.
  - rewrite filter_cons_False by done. cbn.
    by rewrite lookup_insert_ne.
Qed.

(** X1.  When the tag lookup of a cluster returns, [_cluster_has_required_tags]
    makes that one call, prints nothing, and answers [True] exactly when
    every required key is carried by a tag of the response and the last tag
    carrying it has the required value. *)
Theorem X1_required_tags_matched
    (redshift : Client) (c : Cluster) (d : gmap string string) (tags : TagsResponse) :
  list_tags_for_resource redshift (ClusterIdentifier c) = Returns tags →
  ∃ b : bool,
    _cluster_has_required_tags redshift c d =
      ([EvListTags (ClusterIdentifier c)], Returns b)
    ∧ (b = true ↔
       ∀ key value, d !! key = Some value →
         Value <$> last (tags_with_key key (TaggedResources tags)) = Some value).
Proof.
  intros E. rewrite _cluster_has_required_tags_run, E.
  eexists. split; [reflexivity|].
  rewrite items_loop_subseteq, map_subseteq_spec.
  by setoid_rewrite tag_dict_of_lookup.
Qed.

Lemma X1_required_tags_matched_witness :
  _cluster_has_required_tags offline_client
    {| ClusterIdentifier := "c1"; ClusterCreateTime := at_time 100 |}
    {[ "env" := "prod" ]} =
  ([EvListTags "c1"], Returns true).
Proof.
  destruct (X1_required_tags_matched offline_client
              {| ClusterIdentifier := "c1"; ClusterCreateTime := at_time 100 |}
              {[ "env" := "prod" ]}
              {| TaggedResources := [ {| Key := "env"; Value := "dev" |};
                                      {| Key := "team"; Value := "data" |};
                                      {| Key := "env"; Value := "prod" |} ] |})
    as (b & E & Hb).
  - reflexivity.
  - rewrite E. f_equal. f_equal. apply Hb.
    intros key value [<- <-]%lookup_singleton_Some. reflexivity.
Defined.

(** X2.  In the dict built from the tags of the response, a key maps to the
    value of the last tag that carries it, and a key that no tag carries is
    absent. *)
Theorem X2_tag_dict_last_tag_wins (tags : list Tag) (key : string) :
  tag_dict_of tags !! key = Value <$> last (tags_with_key key tags).
Proof. apply tag_dict_of_lookup. Qed.

(** ** A call that raises something else than [ClientError] *)

Lemma stops_at_absent {A} ev e (m : M A) : ev ∉ trace m → stops_at ev e m.
Proof. by intros H ?. Qed.

Lemma stops_at_bind {A B} ev e (m : M A) (f : A → M B) :
  stops_at ev e m → (∀ a, stops_at ev e (f a)) → stops_at ev e (m ≫= f).
Proof.
  intros Hm Hf. unfold stops_at. rewrite trace_bind, result_bind, elem_of_app.
  intros [H|H].
  - destruct (Hm H) as [-> L]. by rewrite app_nil_r.
  - destruct (result m) as [a|e']; [|by apply elem_of_nil in H].
    destruct (Hf a H) as [-> L]. by rewrite last_app, L.
Qed.

Lemma stops_at_for_each {A} ev e (l : list A) (f : A → M unit) :
  (∀ x, stops_at ev e (f x)) → stops_at ev e (for_each l f).
Proof.
  intros H. induction l as [|x l IH]; [by apply stops_at_absent, not_elem_of_nil|].
  cbn [for_each]. by apply stops_at_bind.
Qed.

Lemma stops_at_lister {A} ev e k (p : paginated A) keep ident body :
  ev ≠ EvPaginate k →
  (∀ x, stops_at ev e (keep x)) → (∀ id, stops_at ev e (body id)) →
  stops_at ev e (lister k p keep ident body).
Proof.
  intros Hk Hkeep Hbody. unfold lister.
  apply stops_at_bind; [apply stops_at_absent; cbn; set_solver|]. intros _.
  apply stops_at_bind.
  - apply stops_at_for_each. intros x. unfold item.
    apply stops_at_bind; [done|]. intros []; [done|].
    apply stops_at_absent, not_elem_of_nil.
  - intros _. apply stops_at_absent. destruct (failure p); apply not_elem_of_nil.
Qed.

Lemma stops_at_delete_body k delete n l id id' e :
  delete id = Raises e → is_ClientError e = false →
  stops_at (EvDelete k id) e (delete_body k delete n l id').
Proof.
  intros E He H.
  apply delete_body_elem in H as [[= <-]|[[s ?]|(? & ? & ?)]]; [|done..].
  rewrite delete_body_run, E. by destruct e.
Qed.

Lemma stops_at_quiet {A} ev e (m : M A) :
  (∀ ev', ev' ∈ trace m → quiet ev') → ¬ quiet ev → stops_at ev e m.
Proof. intros H Hq. apply stops_at_absent. intros ?%H. done. Qed.

Lemma handler_stops_at_delete redshift td rt k k' id e :
  delete_op redshift k id = Raises e → is_ClientError e = false →
  stops_at (EvDelete k id) e (handler redshift td rt k').
Proof.
  intros E He. destruct (decide (k' = k)) as [->|Hk].
  - assert (Hq : ∀ A (m : M A), (∀ ev', ev' ∈ trace m → quiet ev') →
                   stops_at (EvDelete k id) e m).
    { intros A m H. apply stops_at_quiet; [done|]. intros []. }
    destruct k; cbn [handler delete_op] in *.
    + rewrite nuke_clusters_body, list_clusters_lister.
      apply stops_at_lister; [done| |].
      * intros x. apply Hq. intros ev'. apply keep_cluster_quiet.
      * intros id'. by apply stops_at_delete_body.
    + rewrite nuke_snapshots_body, list_snapshots_lister.
      apply stops_at_lister; [done| |].
      * intros x. apply Hq. intros ev'. apply keep_snapshot_quiet.
      * intros id'. by apply stops_at_delete_body.
    + rewrite nuke_subnets_body, list_subnet_lister.
      apply stops_at_lister; [done| |].
      * intros x. apply Hq. intros ev'. apply keep_all_quiet.
      * intros id'. by apply stops_at_delete_body.
    + rewrite nuke_param_groups_body, list_cluster_params_lister.
      apply stops_at_lister; [done| |].
      * intros x. apply Hq. intros ev'. apply keep_all_quiet.
      * intros id'. by apply stops_at_delete_body.
  - apply stops_at_absent. intros H. by apply handler_delete_kind in H.
Qed.

Lemma keep_cluster_stops_at_lookup redshift td rt c id e :
  list_tags_for_resource redshift id = Raises e → is_ClientError e = false →
  stops_at (EvListTags id) e (keep_cluster redshift td rt c).
Proof.
  intros E He H.
  assert (id = ClusterIdentifier c) as ->.
  { apply keep_cluster_elem in H as [_ [[= ->]|[s [=]]]]. done. }
  revert H. unfold keep_cluster.
  destruct (float_lt _ _); [|by intros ?%elem_of_nil].
  destruct rt as [d|]; [|by intros ?%elem_of_nil].
  destruct (truthy (Some d)); [|by intros ?%elem_of_nil].
  rewrite _cluster_has_required_tags_run, E. by destruct e.
Qed.

Lemma handler_stops_at_lookup redshift td rt k id e :
  list_tags_for_resource redshift id = Raises e → is_ClientError e = false →
  stops_at (EvListTags id) e (handler redshift td rt k).
Proof.
  intros E He. destruct (decide (k = cluster)) as [->|Hk].
  - cbn [handler]. rewrite nuke_clusters_body, list_clusters_lister.
    apply stops_at_lister; [done| |].
    + intros x. by apply keep_cluster_stops_at_lookup.
    + intros id'. apply stops_at_absent.
      intros [|[[]|(?&?&?)]]%delete_body_elem; done.
  - apply stops_at_absent. intros H.
    by apply handler_tag_lookup_elem in H as [? _].
Qed.

(** X3.  A tag lookup that raises something else than [ClientError] is not
    caught: it is the last thing [nuke] does, and the exception leaves
    [nuke]. *)
Theorem X3_tag_lookup_other_exception_aborts_nuke
    (redshift : Client) (td : float) (rt : option (gmap string string))
    (id : string) (e : exn) :
  list_tags_for_resource redshift id = Raises e →
  is_ClientError e = false →
  EvListTags id ∈ trace (nuke redshift td rt) →
  result (nuke redshift td rt) = Raises e
  ∧ last (trace (nuke redshift td rt)) = Some (EvListTags id).
Proof.
  intros E He. rewrite nuke_for_each.
  apply stops_at_for_each. intros k. by apply handler_stops_at_lookup.
Qed.

Lemma X3_tag_lookup_other_exception_aborts_nuke_witness :
  result (nuke offline_client (seconds 1000) (Some {[ "env" := "dev" ]})) =
    Raises (EndpointConnectionError "Could not connect")
  ∧ last (trace (nuke offline_client (seconds 1000) (Some {[ "env" := "dev" ]}))) =
    Some (EvListTags "c3").
Proof.
  apply (X3_tag_lookup_other_exception_aborts_nuke offline_client (seconds 1000)
           (Some {[ "env" := "dev" ]}) "c3"
           (EndpointConnectionError "Could not connect")).
  - reflexivity.
  - reflexivity.
  - apply (list_elem_of_lookup_2 _ 3). reflexivity.
Defined.

(** X4.  A delete call that raises something else than [ClientError] is not
    caught: it is the last thing [nuke] does (no report, no further item, no
    further kind), and the exception leaves [nuke]. *)
Theorem X4_delete_other_exception_aborts_nuke
    (redshift : Client) (td : float) (rt : option (gmap string string))
    (k : kind) (id : string) (e : exn) :
  delete_op redshift k id = Raises e →
  is_ClientError e = false →
  EvDelete k id ∈ trace (nuke redshift td rt) →
  result (nuke redshift td rt) = Raises e
  ∧ last (trace (nuke redshift td rt)) = Some (EvDelete k id).
Proof.
  intros E He. rewrite nuke_for_each.
  apply stops_at_for_each. intros k'. by apply handler_stops_at_delete.
Qed.

Lemma X4_delete_other_exception_aborts_nuke_witness :
  result (nuke offline_client (seconds 1000) None) =
    Raises (EndpointConnectionError "Could not connect")
  ∧ last (trace (nuke offline_client (seconds 1000) None)) =
    Some (EvDelete cluster "c2").
Proof.
  apply (X4_delete_other_exception_aborts_nuke offline_client (seconds 1000) None
           cluster "c2" (EndpointConnectionError "Could not connect")).
  - reflexivity.
  - reflexivity.
  - apply (list_elem_of_lookup_2 _ 3). reflexivity.
Defined.

(** ** What a loop can touch *)

Lemma for_each_omap_sublist {A B} (f : event → option B) (l : list A)
    (g : A → M unit) (P : A → bool) (ι : A → B) :
  (∀ x, omap f (trace (g x)) `sublist_of` (if P x then [ι x] else [])) →
  omap f (trace (for_each l g)) `sublist_of` ι <$> filter P l.
Proof.
  intros H. induction l as [|x l IH]; [done|].
  cbn [for_each]. rewrite trace_seq, omap_app.
  replace (ι <$> filter P (x :: l))
    with ((if P x then [ι x] else []) ++ (ι <$> filter P l))
    by (rewrite filter_cons; by destruct (P x)).
  apply sublist_app; [done|].
  destruct (returns (g x)); [done|apply sublist_nil_l].
Qed.

Lemma for_each_omap_eq {A B} (f : event → option B) (l : list A)
    (g : A → M unit) (P : A → bool) (ι : A → B) :
  (∀ x, omap f (trace (g x)) = if P x then [ι x] else []) →
  (∀ x, result (g x) = Returns tt) →
  omap f (trace (for_each l g)) = ι <$> filter P l.
Proof.
  intros H Hr. induction l as [|x l IH]; [done|].
  cbn [for_each]. rewrite trace_seq, omap_app. unfold returns.
  rewrite Hr, H, IH, filter_cons. by destruct (P x).
Qed.

Lemma lister_omap {A B} (f : event → option B) k (p : paginated A) keep ident body :
  omap f (trace (lister k p keep ident body)) =
  omap f [EvPaginate k] ++
  omap f (trace (for_each (concat (pages p)) (item keep ident body))).
Proof.
  unfold lister. rewrite trace_seq, omap_app. cbn [emit trace result fst snd returns].
  f_equal. rewrite trace_seq, omap_app.
  destruct (returns _); [|by rewrite app_nil_r].
  destruct (failure p); by rewrite app_nil_r.
Qed.

Lemma item_deletes {A} k (keep : A → M bool) ident delete n l (x : A) :
  (∀ ev, ev ∈ trace (keep x) → quiet ev) →
  deletes k (trace (item keep ident (delete_body k delete n l) x)) =
  match result (keep x) with Returns true => [ident x] | _ => [] end.
Proof.
  intros Hq. unfold item. rewrite trace_bind, deletes_app.
  rewrite (deletes_nil_Forall k (trace (keep x))).
  - destruct (result (keep x)) as [[]|]; [|done..]. apply delete_body_deletes.
  - apply Forall_forall. intros ev H id ->. by apply Hq in H.
Qed.

Lemma lister_deletes_sublist {A} k (p : paginated A) keep ident delete n l
    (P : A → bool) :
  (∀ x ev, ev ∈ trace (keep x) → quiet ev) →
  (∀ x, result (keep x) = Returns true → P x = true) →
  deletes k (trace (lister k p keep ident (delete_body k delete n l)))
    `sublist_of` ident <$> filter P (concat (pages p)).
Proof.
  intros Hq HP. unfold deletes. rewrite lister_omap. cbn [omap list_omap app].
  apply for_each_omap_sublist. intros x.
  change (deletes k (trace (item keep ident (delete_body k delete n l) x))
            `sublist_of` (if P x then [ident x] else [])).
  rewrite item_deletes by apply Hq.
  destruct (result (keep x)) as [[]|] eqn:E; try apply sublist_nil_l.
  by rewrite HP.
Qed.

Lemma keep_snapshot_true td s :
  result (keep_snapshot td s) = Returns true → old_snapshot td s = true.
Proof. unfold keep_snapshot, old_snapshot. by intros [= E]. Qed.

Lemma handler_deletes_sublist redshift td rt k :
  deletes k (trace (handler redshift td rt k)) `sublist_of` eligible_ids redshift td k.
Proof.
  destruct k; cbn [handler eligible_ids].
  - rewrite nuke_clusters_body, list_clusters_lister.
    apply lister_deletes_sublist; [apply keep_cluster_quiet|].
    intros x. apply keep_cluster_true.
  - rewrite nuke_snapshots_body, list_snapshots_lister.
    apply lister_deletes_sublist; [apply keep_snapshot_quiet|].
    intros x. apply keep_snapshot_true.
  - rewrite nuke_subnets_body, list_subnet_lister.
    rewrite <- (filter_all (concat _)).
    apply lister_deletes_sublist; [intros x; apply keep_all_quiet|done].
  - rewrite nuke_param_groups_body, list_cluster_params_lister.
    rewrite <- (filter_all (concat _)).
    apply lister_deletes_sublist; [intros x; apply keep_all_quiet|done].
Qed.

Lemma for_each_handlers_deletes_cases redshift td rt k pre post :
  k ∉ pre → k ∉ post →
  deletes k (trace (for_each (pre ++ k :: post) (handler redshift td rt))) =
    deletes k (trace (handler redshift td rt k))
  ∨ deletes k (trace (for_each (pre ++ k :: post) (handler redshift td rt))) = [].
Proof.
  intros Hpre Hpost. induction pre as [|k' pre IH].
  - left. by apply for_each_head_deletes.
  - apply not_elem_of_cons in Hpre as [Hk Hpre].
    cbn [app for_each]. rewrite trace_seq, deletes_app, handler_other_deletes by done.
    destruct (returns _); [by apply IH|by right].
Qed.

Lemma nuke_deletes_cases redshift td rt k :
  deletes k (trace (nuke redshift td rt)) = deletes k (trace (handler redshift td rt k))
  ∨ deletes k (trace (nuke redshift td rt)) = [].
Proof.
  rewrite nuke_for_each.
  assert (E : ∃ post, all_kinds = (earlier k ++ k :: post) ∧ (k ∉ earlier k) ∧ (k ∉ post)).
  { destruct k; cbn [earlier]; eexists; (split; [reflexivity|]); set_solver. }
  destruct E as (post & -> & Hpre & Hpost).
  by apply for_each_handlers_deletes_cases.
Qed.

(** X5.  Whatever fails, the delete attempts [nuke] makes for a kind are
    taken from the items the listing of that kind holds, in listing order
    and at most once per listed item; for clusters and snapshots only from
    the items created strictly before the threshold. *)
Theorem X5_deletes_within_listing
    (redshift : Client) (td : float) (rt : option (gmap string string)) (k : kind) :
  deletes k (trace (nuke redshift td rt)) `sublist_of` eligible_ids redshift td k.
Proof.
  destruct (nuke_deletes_cases redshift td rt k) as [-> | ->].
  - apply handler_deletes_sublist.
  - apply sublist_nil_l.
Qed.

Lemma nan_not_old_cluster c : old_cluster NaN c = false.
Proof. done. Qed.

Lemma nan_not_old_snapshot s : old_snapshot NaN s = false.
Proof. done. Qed.

Lemma filter_none {A} (P : A → bool) (l : list A) :
  (∀ x, P x = false) → filter P l = [].
Proof.
  intros H. induction l as [|x l IH]; [done|].
  rewrite filter_cons_False; [done|]. rewrite H. intros [].
Qed.

(** ** Tag lookups *)

Lemma keep_cluster_tag_lookups redshift td rt c :
  tag_lookups (trace (keep_cluster redshift td rt c)) =
  if old_cluster td c && truthy rt then [ClusterIdentifier c] else [].
Proof.
  unfold keep_cluster, old_cluster. destruct (float_lt _ _); [|reflexivity].
  destruct rt as [d|]; [|reflexivity]. cbn [andb].
  destruct (truthy (Some d)); [|reflexivity].
  rewrite _cluster_has_required_tags_run.
  by destruct (list_tags_for_resource _ _) as [tags|[]].
Qed.

Lemma delete_body_tag_lookups k delete n l id :
  tag_lookups (trace (delete_body k delete n l id)) = [].
Proof. rewrite delete_body_run. by destruct (delete id) as [[]|[]]. Qed.

Lemma item_cluster_tag_lookups redshift td rt k delete n l c :
  tag_lookups (trace (item (keep_cluster redshift td rt) ClusterIdentifier
                           (delete_body k delete n l) c)) =
  if old_cluster td c && truthy rt then [ClusterIdentifier c] else [].
Proof.
  unfold item, tag_lookups. rewrite trace_bind, omap_app.
  fold (tag_lookups (trace (keep_cluster redshift td rt c))).
  rewrite keep_cluster_tag_lookups.
  destruct (result _) as [[]|]; rewrite ?app_nil_r; try done.
  fold (tag_lookups (trace (delete_body k delete n l (ClusterIdentifier c)))).
  by rewrite delete_body_tag_lookups, app_nil_r.
Qed.

Lemma for_each_other_tag_lookups redshift td rt ks :
  cluster ∉ ks →
  tag_lookups (trace (for_each ks (handler redshift td rt))) = [].
Proof.
  intros Hk. apply tag_lookups_nil. intros id (k & Hin & H)%for_each_trace_elem.
  apply handler_tag_lookup_elem in H as [-> _]. done.
Qed.

Lemma nuke_tag_lookups redshift td rt :
  tag_lookups (trace (nuke redshift td rt)) =
  tag_lookups (trace (nuke_clusters redshift td rt)).
Proof.
  rewrite nuke_for_each.
  assert (H : ∀ ks, cluster ∉ ks →
            tag_lookups (trace (for_each (cluster :: ks) (handler redshift td rt))) =
            tag_lookups (trace (handler redshift td rt cluster))).
  { intros ks Hks. cbn [for_each]. rewrite trace_seq.
    unfold tag_lookups at 1. rewrite omap_app.
    fold (tag_lookups (trace (handler redshift td rt cluster))).
    destruct (returns _); [|by rewrite app_nil_r].
    fold (tag_lookups (trace (for_each ks (handler redshift td rt)))).
    by rewrite for_each_other_tag_lookups, app_nil_r. }
  unfold all_kinds. rewrite H; [done|set_solver].
Qed.

Lemma nuke_clusters_tag_lookups_sublist redshift td rt :
  tag_lookups (trace (nuke_clusters redshift td rt))
    `sublist_of` eligible_ids redshift td cluster.
Proof.
  rewrite nuke_clusters_body, list_clusters_lister. unfold tag_lookups.
  rewrite lister_omap. cbn [omap list_omap app eligible_ids].
  apply for_each_omap_sublist. intros c.
  pose proof (item_cluster_tag_lookups redshift td rt cluster
                (delete_cluster redshift) "Nuke redshift cluster "
                "redshift cluster" c) as E.
  unfold tag_lookups in E. rewrite E.
  destruct (old_cluster td c); [|done]. destruct (truthy rt); [done|].
  apply sublist_nil_l.
Qed.

Lemma item_returns {A} (keep : A → M bool) ident body (x : A) b :
  result (keep x) = Returns b → (∀ id, result (body id) = Returns tt) →
  result (item keep ident body x) = Returns tt.
Proof.
  intros Hk Hb. unfold item. rewrite result_bind, Hk. by destruct b.
Qed.

Lemma nuke_clusters_tag_lookups redshift td rt :
  truthy rt = true → per_item_failures_caught redshift →
  tag_lookups (trace (nuke_clusters redshift td rt)) = eligible_ids redshift td cluster.
Proof.
  intros Ht [Htags Hdel].
  rewrite nuke_clusters_body, list_clusters_lister. unfold tag_lookups.
  rewrite lister_omap. cbn [omap list_omap app eligible_ids].
  apply for_each_omap_eq.
  - intros c.
    pose proof (item_cluster_tag_lookups redshift td rt cluster
                  (delete_cluster redshift) "Nuke redshift cluster "
                  "redshift cluster" c) as E.
    unfold tag_lookups in E. rewrite E, Ht. by rewrite andb_true_r.
  - intros c. eapply item_returns; [by apply keep_cluster_result|].
    intros id. apply delete_body_returns, (Hdel cluster).
Qed.

(** X6.  Tags are looked up only for clusters created strictly before the
    threshold, in listing order and at most once per listed cluster,
    whatever fails; when required tags are given and every per-item failure
    is a [ClientError], they are looked up for every such cluster, also
    when the listing of clusters ends in an exception. *)
Theorem X6_tag_lookups_for_old_clusters_only
    (redshift : Client) (td : float) (rt : option (gmap string string)) :
  tag_lookups (trace (nuke redshift td rt)) `sublist_of` eligible_ids redshift td cluster
  ∧ (∀ d, rt = Some d → d ≠ ∅ → per_item_failures_caught redshift →
          tag_lookups (trace (nuke redshift td rt)) = eligible_ids redshift td cluster).
Proof.
  rewrite nuke_tag_lookups. split; [apply nuke_clusters_tag_lookups_sublist|].
  intros d -> Hd H. apply nuke_clusters_tag_lookups; [|done].
  destruct (truthy (Some d)) eqn:E; [done|]. by apply truthy_Some_false in E.
Qed.

Lemma X6_tag_lookups_for_old_clusters_only_witness :
  tag_lookups (trace (nuke tagged_client (seconds 1000) (Some {[ "env" := "prod" ]}))) =
  ["a"; "b"; "c"].
Proof.
  destruct (X6_tag_lookups_for_old_clusters_only tagged_client (seconds 1000)
              (Some {[ "env" := "prod" ]})) as [_ H].
  rewrite (H {[ "env" := "prod" ]}); [reflexivity|reflexivity| |].
  - intros E. apply (f_equal (λ m : gmap string string, m !! "env")) in E.
    vm_compute in E. discriminate.
  - split; [caught|intros []; caught].
Defined.

(** X7.  With a threshold that is not a number no comparison succeeds:
    [nuke] makes no tag lookup and deletes no cluster and no snapshot,
    whatever the service holds and whatever fails. *)
Theorem X7_nan_threshold_spares_clusters_and_snapshots
    (redshift : Client) (rt : option (gmap string string)) :
  deletes cluster (trace (nuke redshift NaN rt)) = []
  ∧ deletes snapshot (trace (nuke redshift NaN rt)) = []
  ∧ tag_lookups (trace (nuke redshift NaN rt)) = [].
Proof.
  assert (Hc : eligible_ids redshift NaN cluster = []).
  { cbn [eligible_ids]. by rewrite filter_none by apply nan_not_old_cluster. }
  assert (Hs : eligible_ids redshift NaN snapshot = []).
  { cbn [eligible_ids]. by rewrite filter_none by apply nan_not_old_snapshot. }
  split; [|split]; apply sublist_nil_r.
  - rewrite <- Hc.
    destruct (nuke_deletes_cases redshift NaN rt cluster) as [-> | ->];
      [apply handler_deletes_sublist|apply sublist_nil_l].
  - rewrite <- Hs.
    destruct (nuke_deletes_cases redshift NaN rt snapshot) as [-> | ->];
      [apply handler_deletes_sublist|apply sublist_nil_l].
  - rewrite <- Hc, nuke_tag_lookups. apply nuke_clusters_tag_lookups_sublist.
Qed.

(** ** Snapshots and required tags *)

(** X8.  Required tags never protect a snapshot: with every per-item
    failure a [ClientError], the snapshots [nuke] deletes are those created
    strictly before the threshold (all of them, in listing order) once the
    listing of clusters has not failed, whatever [required_tags] is. *)
Theorem X8_required_tags_do_not_reach_snapshots
    (redshift : Client) (td : float) (rt : option (gmap string string)) :
  per_item_failures_caught redshift →
  deletes snapshot (trace (nuke redshift td rt)) =
  if reached redshift snapshot then eligible_ids redshift td snapshot else [].
Proof.
  intros H. rewrite nuke_deletes by done.
  destruct (reached redshift snapshot); [|done].
  destruct (handler_deletes redshift td rt snapshot (proj2 H snapshot)) as [-> _].
  apply list_snapshots_yields.
Qed.

Lemma X8_required_tags_do_not_reach_snapshots_witness :
  deletes snapshot (trace (nuke flaky_client (seconds 1000) (Some {[ "env" := "prod" ]}))) =
  ["s1"; "s2"; "s4"].
Proof.
  rewrite (X8_required_tags_do_not_reach_snapshots flaky_client (seconds 1000)
             (Some {[ "env" := "prod" ]}) flaky_client_caught).
  reflexivity.
Defined.

(** ** A later threshold *)

Lemma Qltb_lt a b : Qltb a b = true ↔ (a < b)%Q.
Proof. unfold Qltb, Qlt. apply Z.ltb_lt. Qed.

Lemma Qleb_le a b : Qleb a b = true ↔ (a <= b)%Q.
Proof. unfold Qleb, Qle. apply Z.leb_le. Qed.

Lemma float_lt_ge_trans x a b :
  float_lt x a = true → float_ge b a = true → float_lt x b = true.
Proof.
  destruct x as [x| | |], a as [a| | |], b as [b| | |]; cbn; try done.
  rewrite !Qltb_lt, Qleb_le. apply Qlt_le_trans.
Qed.

Lemma filter_sublist_mono {A} (P Q : A → bool) (l : list A) :
  (∀ x, P x = true → Q x = true) → filter P l `sublist_of` filter Q l.
Proof.
  intros H. induction l as [|x l IH]; [done|].
  rewrite !filter_cons. destruct (P x) eqn:E.
  - rewrite (H x E). cbn. by apply sublist_skip.
  - destruct (Q x); cbn; [by apply sublist_cons|done].
Qed.

(** X9.  A later threshold only adds deletions: with every per-item failure
    a [ClientError], the delete attempts made for a kind with some
    threshold are still made, in the same order, with any threshold that
    is greater or equal. *)
Theorem X9_later_threshold_deletes_more
    (redshift : Client) (td td' : float) (rt : option (gmap string string))
    (k : kind) :
  float_ge td' td = true →
  per_item_failures_caught redshift →
  deletes k (trace (handler redshift td rt k))
    `sublist_of` deletes k (trace (handler redshift td' rt k)).
Proof.
  intros Hge [Ht Hd].
  destruct (handler_deletes redshift td rt k (Hd k)) as [-> _].
  destruct (handler_deletes redshift td' rt k (Hd k)) as [-> _].
  destruct k; cbn [listing]; [| |done..].
  - destruct (list_clusters_yields redshift td rt Ht) as [-> _].
    destruct (list_clusters_yields redshift td' rt Ht) as [-> _].
    apply fmap_sublist, filter_sublist_mono. intros c. unfold selected.
    rewrite !andb_true_iff. intros [H1 H2]. split; [|done].
    by eapply float_lt_ge_trans.
  - destruct (list_snapshots_yields redshift td) as [-> _].
    destruct (list_snapshots_yields redshift td') as [-> _].
    apply fmap_sublist, filter_sublist_mono. intros s. unfold old_snapshot.
    intros H. by eapply float_lt_ge_trans.
Qed.

Lemma X9_later_threshold_deletes_more_witness :
  deletes snapshot (trace (nuke_snapshots flaky_client (seconds 150)))
    `sublist_of` deletes snapshot (trace (nuke_snapshots flaky_client (seconds 1000))).
Proof.
  apply (X9_later_threshold_deletes_more flaky_client (seconds 150) (seconds 1000)
           None snapshot).
  - reflexivity.
  - exact flaky_client_caught.
Defined.

(** ** What is printed and what is reported *)

Lemma reports_app t1 t2 : reports (t1 ++ t2) = reports t1 ++ reports t2.
Proof. apply omap_app. Qed.

Lemma reports_consume (P : string → bool) body t :
  (∀ id, reports (trace (body id)) = if P id then [id] else []) →
  (∀ ev, ev ∈ t → ∀ l id e, ev ≠ EvReport l id e) →
  reports (consume body t) = filter P (yields t).
Proof.
  intros Hb. induction t as [|ev t IH]; [done|]. intros H.
  assert (IH' : reports (consume body t) = filter P (yields t)).
  { apply IH. intros ???. apply H. by right. }
  unfold consume in *. rewrite bind_cons, reports_app, IH'.
  destruct ev as [k|idt|k idd|line|lb idr er|idy]; try reflexivity.
  - by destruct (H _ (list_elem_of_here _ _) lb idr er).
  - change (yields (EvYield idy :: t)) with (idy :: yields t).
    rewrite Hb, filter_cons. by destruct (P idy).
Qed.

Lemma delete_body_reports k delete n l id :
  fails_with_ClientError_only delete →
  reports (trace (delete_body k delete n l id)) = if raised (delete id) then [id] else [].
Proof.
  intros H. rewrite delete_body_run.
  destruct (delete id) as [[]|[]] eqn:E; try done. by apply H in E.
Qed.

Lemma lister_reports {A} k (p : paginated A) keep ident delete n l :
  (∀ x ev, ev ∈ trace (keep x) → quiet ev) →
  fails_with_ClientError_only delete →
  reports (trace (lister k p keep ident (delete_body k delete n l))) =
  filter (λ id, raised (delete id))
         (deletes k (trace (lister k p keep ident (delete_body k delete n l)))).
Proof.
  intros Hq Hd.
  destruct (reap_deletes k p keep ident delete n l Hq Hd) as [-> _].
  rewrite (reap_fusion k p keep ident delete n l Hq Hd). cbn [trace fst].
  apply reports_consume.
  - intros id. by apply delete_body_reports.
  - intros ev H lb id e ->.
    apply lister_trace_elem in H as [|(x & _ & [H|[_ H]])]; [done| |].
    + by apply Hq in H.
    + by apply list_elem_of_singleton in H.
Qed.

(** X10.  With the delete failures of a kind all [ClientError]s, the
    identifiers its loop hands to [nuke_exceptions] are exactly those whose
    delete call raised, in the order of the attempts. *)
Theorem X10_reports_are_the_failed_deletes
    (redshift : Client) (td : float) (rt : option (gmap string string)) (k : kind) :
  fails_with_ClientError_only (delete_op redshift k) →
  reports (trace (handler redshift td rt k)) =
  filter (λ id, raised (delete_op redshift k id))
         (deletes k (trace (handler redshift td rt k))).
Proof.
  destruct k; cbn [handler delete_op]; intros H.
  - rewrite nuke_clusters_body, list_clusters_lister.
    apply lister_reports; [apply keep_cluster_quiet|done].
  - rewrite nuke_snapshots_body, list_snapshots_lister.
    apply lister_reports; [apply keep_snapshot_quiet|done].
  - rewrite nuke_subnets_body, list_subnet_lister.
    apply lister_reports; [intros x; apply keep_all_quiet|done].
  - rewrite nuke_param_groups_body, list_cluster_params_lister.
    apply lister_reports; [intros x; apply keep_all_quiet|done].
Qed.

Lemma X10_reports_are_the_failed_deletes_witness :
  reports (trace (nuke_subnets flaky_client)) = ["n2"].
Proof.
  pose proof (X10_reports_are_the_failed_deletes flaky_client NaN None subnet) as E.
  cbn [handler delete_op] in E. rewrite E.
  - reflexivity.
  - caught.
Defined.

Lemma keep_cluster_print_elem redshift td rt c s :
  EvPrint s ∈ trace (keep_cluster redshift td rt c) →
  ∃ rest, s = "Failed to get tags for Redshift cluster " +:+ rest.
Proof.
  unfold keep_cluster. destruct (float_lt _ _); [|by intros ?%elem_of_nil].
  destruct rt as [d|]; [|by intros ?%elem_of_nil].
  destruct (truthy (Some d)); [|by intros ?%elem_of_nil].
  rewrite _cluster_has_required_tags_run.
  destruct (list_tags_for_resource _ _) as [tags|[]]; cbn [trace fst].
  - by intros [=]%list_elem_of_singleton.
  - intros [[=]|[= ->]%list_elem_of_singleton]%elem_of_cons. eauto.
  - by intros [=]%list_elem_of_singleton.
Qed.

Lemma delete_body_print_elem k delete n l id s :
  EvPrint s ∈ trace (delete_body k delete n l id) →
  s = n +:+ id ∧ delete id = Returns tt.
Proof.
  rewrite delete_body_run.
  destruct (delete id) as [[]|[]]; cbn [trace fst].
  - by intros [[=]|[= ->]%list_elem_of_singleton]%elem_of_cons.
  - by intros [[=]|[=]%list_elem_of_singleton]%elem_of_cons.
  - by intros [=]%list_elem_of_singleton.
Qed.

Lemma handler_print_elem redshift td rt k s :
  EvPrint s ∈ trace (handler redshift td rt k) →
  (∃ id, s = notice k +:+ id ∧ delete_op redshift k id = Returns tt)
  ∨ (∃ rest, s = "Failed to get tags for Redshift cluster " +:+ rest).
Proof.
  destruct k; cbn [handler]; intros H.
  - rewrite nuke_clusters_body, list_clusters_lister in H.
    apply lister_trace_elem in H as [|(x & _ & [H|[_ H]])]; [done| |].
    + right. by eapply keep_cluster_print_elem.
    + left. apply delete_body_print_elem in H. eauto.
  - rewrite nuke_snapshots_body, list_snapshots_lister in H.
    apply lister_trace_elem in H as [|(x & _ & [H|[_ H]])]; [done| |].
    + by apply elem_of_nil in H.
    + left. apply delete_body_print_elem in H. eauto.
  - rewrite nuke_subnets_body, list_subnet_lister in H.
    apply lister_trace_elem in H as [|(x & _ & [H|[_ H]])]; [done| |].
    + by apply elem_of_nil in H.
    + left. apply delete_body_print_elem in H. eauto.
  - rewrite nuke_param_groups_body, list_cluster_params_lister in H.
    apply lister_trace_elem in H as [|(x & _ & [H|[_ H]])]; [done| |].
    + by apply elem_of_nil in H.
    + left. apply delete_body_print_elem in H. eauto.
Qed.

Lemma notice_inj k k' id id' :
  notice k +:+ id = notice k' +:+ id' → k = k' ∧ id = id'.
Proof. destruct k, k'; cbn; intros [=]; by subst. Qed.

Lemma notice_not_failure k id rest :
  notice k +:+ id ≠ "Failed to get tags for Redshift cluster " +:+ rest.
Proof. by destruct k. Qed.

(** X11.  [nuke] prints the line announcing the deletion of an item of some
    kind only for an identifier for which the delete operation of that
    kind returned, whatever else fails. *)
Theorem X11_success_line_only_after_successful_delete
    (redshift : Client) (td : float) (rt : option (gmap string string))
    (k : kind) (id : string) :
  EvPrint (notice k +:+ id) ∈ trace (nuke redshift td rt) →
  delete_op redshift k id = Returns tt.
Proof.
  intros [k' H]%nuke_trace_elem.
  apply handler_print_elem in H as [(id' & E & Hd)|[rest E]].
  - by apply notice_inj in E as [-> ->].
  - by apply notice_not_failure in E.
Qed.

Lemma X11_success_line_only_after_successful_delete_witness :
  delete_op flaky_client snapshot "s4" = Returns tt.
Proof.
  apply (X11_success_line_only_after_successful_delete flaky_client (seconds 1000)
           None snapshot "s4").
  apply (list_elem_of_lookup_2 _ 13). reflexivity.
Defined.

(** ** Pages *)

Lemma lister_same {A} k (p p' : paginated A) keep keep' ident body body' :
  same_listing p p' → (∀ x, keep x = keep' x) → (∀ id, body id = body' id) →
  lister k p keep ident body = lister k p' keep' ident body'.
Proof.
  intros [Hc Hf] Hk Hb. unfold lister. rewrite Hc, Hf.
  apply bind_ext. intros _. f_equal.
  apply for_each_ext. intros x _. unfold item. rewrite Hk.
  apply bind_ext. by intros [].
Qed.

Lemma keep_cluster_same r r' td rt c :
  (∀ id, list_tags_for_resource r id = list_tags_for_resource r' id) →
  keep_cluster r td rt c = keep_cluster r' td rt c.
Proof.
  intros H. unfold keep_cluster. destruct (float_lt _ _); [|done].
  destruct rt as [d|]; [|done]. destruct (truthy (Some d)); [|done].
  by rewrite !_cluster_has_required_tags_run, H.
Qed.

Lemma delete_body_same k delete delete' n l id :
  (∀ id, delete id = delete' id) →
  delete_body k delete n l id = delete_body k delete' n l id.
Proof. intros H. by rewrite !delete_body_run, H. Qed.

(** X12.  How the service cuts its listings into pages is of no
    consequence: on two services whose listings hold the same items in the
    same order and end the same way, and whose per-item calls answer alike,
    [nuke] does the same calls, prints and reports in the same order and
    ends the same way. *)
Theorem X12_page_boundaries_do_not_matter
    (r r' : Client) (td : float) (rt : option (gmap string string)) :
  same_items r r' → nuke r td rt = nuke r' td rt.
Proof.
  intros (Hc & Hs & Hn & Hp & Ht & Hdc & Hds & Hdn & Hdp).
  unfold nuke.
  rewrite !nuke_clusters_body, !nuke_snapshots_body, !nuke_subnets_body,
    !nuke_param_groups_body.
  rewrite !list_clusters_lister, !list_snapshots_lister, !list_subnet_lister,
    !list_cluster_params_lister.
  rewrite (lister_same cluster _ _ _ (keep_cluster r' td rt) _ _
             (delete_body cluster (delete_cluster r') "Nuke redshift cluster "
                          "redshift cluster") Hc);
    [|intros; by apply keep_cluster_same|intros; by apply delete_body_same].
  rewrite (lister_same snapshot _ _ _ (keep_snapshot td) _ _
             (delete_body snapshot (delete_cluster_snapshot r')
                          "Nuke redshift snapshot " "redshift snapshot") Hs);
    [|done|intros; by apply delete_body_same].
  rewrite (lister_same subnet _ _ _ keep_all _ _
             (delete_body subnet (delete_cluster_subnet_group r')
                          "Nuke redshift subnet " "redshift subnet") Hn);
    [|done|intros; by apply delete_body_same].
  rewrite (lister_same param _ _ _ keep_all _ _
             (delete_body param (delete_cluster_parameter_group r')
                          "Nuke redshift param " "redshift param") Hp);
    [|done|intros; by apply delete_body_same].
  done.
Qed.

Lemma one_page_same {A} (p : paginated A) : same_listing p (one_page p).
Proof. split; [|done]. cbn. by rewrite app_nil_r. Qed.

Lemma X12_page_boundaries_do_not_matter_witness :
  nuke flaky_client (seconds 1000) None =
  nuke (one_page_client flaky_client) (seconds 1000) None.
Proof.
  apply X12_page_boundaries_do_not_matter.
  repeat split; try apply one_page_same.
Defined.

(** ** The generators on their own *)

(** X13.  Run on its own, a generator requests its paginator and yields;
    it makes no delete call and reports nothing.  Only [list_clusters], and
    only when required tags are given, looks tags up or prints. *)
Theorem X13_generators_only_list
    (redshift : Client) (td : float) (rt : option (gmap string string))
    (k : kind) (ev : event) :
  ev ∈ trace (listing redshift td rt k yield_event) →
  ev = EvPaginate k ∨ (∃ id, ev = EvYield id ∧ id ∈ eligible_ids redshift td k)
  ∨ (k = cluster ∧ truthy rt = true ∧ quiet ev).
Proof.
  destruct k; cbn [listing eligible_ids]; intros H.
  - rewrite list_clusters_lister in H.
    apply lister_trace_elem in H as [|(x & Hx & [H|[Hk H]])]; [by left| |].
    + right; right. split; [done|]. split.
      * by apply keep_cluster_elem in H as [? _].
      * by apply keep_cluster_quiet in H.
    + right; left. apply list_elem_of_singleton in H as ->.
      eexists. split; [done|]. apply list_elem_of_fmap_2, list_elem_of_filter.
      split; [|done]. unfold old_cluster.
      by rewrite (keep_cluster_true _ _ _ _ Hk).
  - rewrite list_snapshots_lister in H.
    apply lister_trace_elem in H as [|(x & Hx & [H|[Hk H]])]; [by left| |].
    + by apply elem_of_nil in H.
    + right; left. apply list_elem_of_singleton in H as ->.
      eexists. split; [done|]. apply list_elem_of_fmap_2, list_elem_of_filter.
      split; [|done]. by rewrite (keep_snapshot_true _ _ Hk).
  - rewrite list_subnet_lister in H.
    apply lister_trace_elem in H as [|(x & Hx & [H|[Hk H]])]; [by left| |].
    + by apply elem_of_nil in H.
    + right; left. apply list_elem_of_singleton in H as ->.
      eexists. split; [done|]. by apply list_elem_of_fmap_2.
  - rewrite list_cluster_params_lister in H.
    apply lister_trace_elem in H as [|(x & Hx & [H|[Hk H]])]; [by left| |].
    + by apply elem_of_nil in H.
    + right; left. apply list_elem_of_singleton in H as ->.
      eexists. split; [done|]. by apply list_elem_of_fmap_2.
Qed.

Lemma X13_generators_only_list_witness :
  EvYield "s4" = EvPaginate snapshot
  ∨ (∃ id, EvYield "s4" = EvYield id
           ∧ id ∈ eligible_ids flaky_client (seconds 1000) snapshot)
  ∨ (snapshot = cluster ∧ truthy None = true ∧ quiet (EvYield "s4")).
Proof.
  apply (X13_generators_only_list flaky_client (seconds 1000) None snapshot).
  apply (list_elem_of_lookup_2 _ 3). reflexivity.
Defined.

(** ** The constructor *)


